(** * The contact-list endpoint and its composable pipeline

    A shallow embedding of [src/step_1.py], [src/step_2.py] and
    [src/step_3.py]: the same endpoint written as one function, as four
    stage functions, and as a chain of [composable] objects joined with
    the [|] operator.

    Python values are one inductive type [value]; a Python [str] is the
    list of its code points; an exception is a constructor of [exn] and a
    computation that may raise returns a [result].  Instances of the
    class [composable] are mutable Python objects, so they live in a
    store and values refer to them by location. *)

From Stdlib Require Import ZArith NArith List String Ascii Bool Lia.
From stdpp Require Import base gmap.
Import ListNotations.

Set Warnings "-register-all".
Local Open Scope N_scope.

(** ** Strings *)

(** A Python [str]: the sequence of its Unicode code points. *)
Definition str : Type := list N.

(** Reads a literal: the code points of an ASCII string, where an
    apostrophe stands for the double quote (code 34) and the two
    characters backslash-n stand for a line feed (code 10), backslash-t
    for a tab and backslash-r for a carriage return. *)
Fixpoint lit (s : string) : str :=
  match s with
  | EmptyString => []
  | String c s' =>
      match N_of_ascii c, s' with
      | 92, String d s'' =>
          match N_of_ascii d with
          | 110 => 10 :: lit s''
          | 116 => 9 :: lit s''
          | 114 => 13 :: lit s''
          | _ => 92 :: lit s'
          end
      | 39, _ => 34 :: lit s'
      | n, _ => n :: lit s'
      end
  end.

Fixpoint str_eqb (a b : str) : bool :=
  match a, b with
  | [], [] => true
  | x :: a', y :: b' => (x =? y) && str_eqb a' b'
  | _, _ => false
  end.

(** [str.isspace] on one code point (the Unicode white space of CPython). *)
Definition isspace (c : N) : bool :=
  ((9 <=? c) && (c <=? 13)) || ((28 <=? c) && (c <=? 32))
  || (c =? 133) || (c =? 160) || (c =? 5760)
  || ((8192 <=? c) && (c <=? 8202))
  || (c =? 8232) || (c =? 8233) || (c =? 8239) || (c =? 8287) || (c =? 12288).

(** [s.lstrip()], [s.rstrip()] and [s.strip()] with no argument. *)
Fixpoint lstrip (s : str) : str :=
  match s with
  | c :: s' => if isspace c then lstrip s' else s
  | [] => []
  end.

Definition rstrip (s : str) : str := rev (lstrip (rev s)).

Definition strip (s : str) : str := rstrip (lstrip s).

(** Truth value of a [str]: the empty string is false. *)
Definition str_truthy (s : str) : bool :=
  match s with [] => false | _ :: _ => true end.

(** [s.split(sep)] for a separator of one code point. *)
Fixpoint split (sep : N) (s : str) : list str :=
  match s with
  | [] => [[]]
  | c :: s' =>
      if c =? sep then [] :: split sep s'
      else match split sep s' with
           | seg :: segs => (c :: seg) :: segs
           | [] => [[c]]
           end
  end.

Definition NEWLINE : N := 10.

(** ** Paths and files *)

(** A [pathlib] path on a POSIX system: whether it is rooted, and its
    segments.  Empty segments and single dots are dropped, [..] is
    kept; a root of two slashes is read as one. *)
Record Path : Type := mkPath { rooted : bool; parts : list str }.

Definition SLASH : N := 47.
Definition DOT : N := 46.

Definition path_segments (s : str) : list str :=
  List.filter (fun seg => negb (str_eqb seg [] || str_eqb seg [DOT]))
              (split SLASH s).

Definition is_absolute (s : str) : bool :=
  match s with c :: _ => c =? SLASH | [] => false end.

(** [p / s]: a rooted right operand replaces the path. *)
Definition truediv (p : Path) (s : str) : Path :=
  if is_absolute s then mkPath true (path_segments s)
  else mkPath (rooted p) (parts p ++ path_segments s).

(** What [open(path)] followed by [read()] does at a path: [open]
    refuses the path itself because it holds a NUL character
    ([BadPath]); the operating system reports no such file ([Missing])
    or fails the open or the read otherwise ([Failing]); the bytes of
    the file are not text in the encoding ([Undecodable]); or [read()]
    returns the text [buf]. *)
Inductive file_state : Type :=
| Missing
| Failing (errno : Z)
| BadPath
| Undecodable
| Text (buf : str).

(** A path one of whose segments holds the code point 0. *)
Definition has_nul (p : Path) : bool :=
  existsb (existsb (N.eqb 0)) (parts p).

Definition filesystem : Type := Path -> file_state.

(** ** Values *)

(** A location in the store of [composable] instances. *)
Abbreviation loc := nat.

Record Contact : Type := mkContact { name : str; job : str }.

Inductive value : Type :=
| VNone
| VBool (b : bool)
| VInt (z : Z)
| VFloat (literal : str)
| VStr (s : str)
| VList (xs : list value)
| VTuple (xs : list value)
| VSet (xs : list value)
| VDict (items : list (value * value))
| VPath (p : Path)
| VContact (c : Contact)
| VFunc (fname : string)
| VComposable (l : loc)
| VLamThen (self : loc) (other : value)
| VLamConst (self : loc) (other : value).

(** [VFunc] is a plain function, known by its name; [VComposable l] the
    instance of [composable] at location [l]; [VLamThen self other] the
    closure [lambda value: other(self.func(value))] and
    [VLamConst self other] the closure [lambda x: self.func(other)] of
    [composable.__or__], which capture the object [self] and the value
    [other]. *)

(** ** Exceptions

    [FileNotFoundError] is the [OSError] of a missing file and [OSError]
    any other failure of [open] or [read] that the operating system
    reports; [ValueError] and its subclass [UnicodeDecodeError] are not
    [OSError]s; [UserError] stands for the exceptions that plain
    functions of a program raise. *)

Inductive field_error : Type := FieldMissing | FieldNotString.

Inductive exn : Type :=
| FileNotFoundError (filename : Path)
| OSError (errno : Z) (filename : Path)
| JSONDecodeError (msg : string) (doc : str) (pos : nat)
| RecursionError
| TypeError (msg : string)
| ValidationError (record : value) (errors : list (string * field_error))
| ValueError (msg : string)
| UnicodeDecodeError
| UserError (tag : string) (payload : value).

Inductive result (A : Type) : Type :=
| Ret (a : A)
| Raise (e : exn).

Arguments Ret {A} a.
Arguments Raise {A} e.

Definition bind {A B : Type} (m : result A) (k : A -> result B) : result B :=
  match m with
  | Ret a => k a
  | Raise e => Raise e
  end.

Notation "'let*' x := m 'in' k" := (bind m (fun x => k))
  (at level 10, x name, m at level 100, k at level 200).

(** A list comprehension [[f(x) for x in xs]]: left to right, the first
    exception leaves the comprehension. *)
Fixpoint comprehension {A B : Type} (f : A -> result B) (xs : list A)
  : result (list B) :=
  match xs with
  | [] => Ret []
  | x :: xs' =>
      let* y := f x in
      let* ys := comprehension f xs' in
      Ret (y :: ys)
  end.

(** ** Dictionaries

    A [dict] is the list of its items in insertion order; its keys are
    pairwise different. *)

Definition key_is (k : str) (x : value) : bool :=
  match x with VStr s => str_eqb s k | _ => false end.

Definition dict_get (items : list (value * value)) (k : str) : option value :=
  match List.find (fun kv => key_is k (fst kv)) items with
  | Some kv => Some (snd kv)
  | None => None
  end.

(** ** JSON values

    What a JSON decoder can return: [None], a [bool], an [int], a
    [float] (kept as its literal text), a [str], a [list] of such values
    or a [dict] from [str] keys to such values. *)

Inductive json : Type :=
| JNull
| JBool (b : bool)
| JInt (z : Z)
| JFloat (literal : str)
| JStr (s : str)
| JArray (xs : list json)
| JObject (items : list (str * json)).

Fixpoint of_json (j : json) : value :=
  match j with
  | JNull => VNone
  | JBool b => VBool b
  | JInt z => VInt z
  | JFloat l => VFloat l
  | JStr s => VStr s
  | JArray xs => VList (map of_json xs)
  | JObject items =>
      VDict (map (fun kv => match kv with (k, v) => (VStr k, of_json v) end)
                 items)
  end.

Fixpoint dict_setitem (k : str) (v : json) (items : list (str * json))
  : list (str * json) :=
  match items with
  | [] => [(k, v)]
  | (k', v') :: items' =>
      if str_eqb k' k then (k', v) :: items'
      else (k', v') :: dict_setitem k v items'
  end.

(** [dict(pairs)]: a later pair with the same key replaces the value and
    keeps the first position. *)
Definition dict_of_pairs (pairs : list (str * json)) : list (str * json) :=
  fold_left (fun d kv => dict_setitem (fst kv) (snd kv) d) pairs [].

(** ** The JSON decoder

    [json.loads] of the Python standard library is not part of the
    repository.  The stage functions below take the decoder as an
    argument; [json_loads] is the decoder used when a concrete one is
    needed.  It follows [json/decoder.py] and [json/scanner.py]: the
    white space is space, tab, line feed and carriage return; a value is
    an object, an array, a string, a number, [true], [false], [null],
    [NaN], [Infinity] or [-Infinity]; anything after the value other
    than white space is [Extra data].  A float keeps its literal text.
    The positions of the errors are those of the compiled scanner.  The
    limits of the interpreter are not part of it: the real decoder also
    raises [RecursionError] on nesting deeper than the recursion limit
    and [ValueError] on an integer of more than 4300 digits, where this
    one returns the value.  The fuel is a function of the length of the
    document and is never used up. *)

Inductive scan (A : Type) : Type :=
| Scanned (a : A) (rest : str) (idx : nat)
| StopIteration (idx : nat)
| ScanError (msg : string) (pos : nat)
| TooDeep.

Arguments Scanned {A} a rest idx.
Arguments StopIteration {A} idx.
Arguments ScanError {A} msg pos.
Arguments TooDeep {A}.

Definition is_ws (c : N) : bool :=
  (c =? 32) || (c =? 9) || (c =? 10) || (c =? 13).

Fixpoint skip_ws (rest : str) (idx : nat) : str * nat :=
  match rest with
  | c :: rest' => if is_ws c then skip_ws rest' (S idx) else (rest, idx)
  | [] => ([], idx)
  end.

Fixpoint starts_with (prefix s : str) : option str :=
  match prefix, s with
  | [], _ => Some s
  | p :: prefix', c :: s' => if p =? c then starts_with prefix' s' else None
  | _ :: _, [] => None
  end.

Definition is_digit (c : N) : bool := (48 <=? c) && (c <=? 57).

Fixpoint span_digits (s : str) : str * str :=
  match s with
  | c :: s' =>
      if is_digit c then let (ds, r) := span_digits s' in (c :: ds, r)
      else ([], s)
  | [] => ([], [])
  end.

Definition int_of_digits (ds : str) : Z :=
  fold_left (fun acc c => (10 * acc + Z.of_N (c - 48))%Z) ds 0%Z.

Definition hex_val (c : N) : option N :=
  if is_digit c then Some (c - 48)
  else if (97 <=? c) && (c <=? 102) then Some (c - 87)
  else if (65 <=? c) && (c <=? 70) then Some (c - 55)
  else None.

(** The four hexadecimal digits of a [\uXXXX] escape. *)
Definition decode_uXXXX (s : str) : option (N * str) :=
  match s with
  | a :: b :: c :: d :: rest =>
      match hex_val a, hex_val b, hex_val c, hex_val d with
      | Some x, Some y, Some z, Some w =>
          Some (((x * 16 + y) * 16 + z) * 16 + w, rest)
      | _, _, _, _ => None
      end
  | _ => None
  end.

Definition unescape (c : N) : option N :=
  match c with
  | 34 => Some 34 | 92 => Some 92 | 47 => Some 47
  | 98 => Some 8 | 102 => Some 12 | 110 => Some 10
  | 114 => Some 13 | 116 => Some 9
  | _ => None
  end.

(** [scanstring]: the text after an opening double quote at [begin]. *)
Fixpoint scanstring (fuel : nat) (begin : nat) (acc : str) (rest : str)
  (idx : nat) : scan str :=
  match fuel with
  | O => TooDeep
  | S fuel' =>
      match rest with
      | [] => ScanError "Unterminated string starting at" begin
      | c :: rest' =>
          if c =? 34 then Scanned (rev acc) rest' (S idx)
          else if c <? 32 then ScanError "Invalid control character at" idx
          else if c =? 92 then
            match rest' with
            | [] => ScanError "Unterminated string starting at" begin
            | e :: rest'' =>
                if e =? 117 then
                  match decode_uXXXX rest'' with
                  | None => ScanError "Invalid \uXXXX escape" (S idx)
                  | Some (uni, r) =>
                      if (55296 <=? uni) && (uni <=? 56319) then
                        match starts_with [92; 117] r with
                        | Some r' =>
                            match decode_uXXXX r' with
                            | None => ScanError "Invalid \uXXXX escape" (idx + 7)
                            | Some (uni2, r'') =>
                                if (56320 <=? uni2) && (uni2 <=? 57343) then
                                  scanstring fuel' begin
                                    (65536 + (uni - 55296) * 1024 + (uni2 - 56320) :: acc)
                                    r'' (idx + 12)
                                else scanstring fuel' begin (uni :: acc) r (idx + 6)
                            end
                        | None => scanstring fuel' begin (uni :: acc) r (idx + 6)
                        end
                      else scanstring fuel' begin (uni :: acc) r (idx + 6)
                  end
                else
                  match unescape e with
                  | Some ch => scanstring fuel' begin (ch :: acc) rest'' (idx + 2)
                  | None => ScanError "Invalid \escape" idx
                  end
            end
          else scanstring fuel' begin (c :: acc) rest' (S idx)
      end
  end.

(** The number pattern of the scanner: an optional minus sign and an
    integer part, which is a lone zero or a digit from one to nine
    followed by digits; then, each optional, a fraction (a dot and at
    least one digit) and an exponent (e or E, an optional sign and at
    least one digit). *)
Definition match_digits (s : str) : option (str * str) :=
  match s with
  | c :: r =>
      if c =? 48 then Some ([48], r)
      else if is_digit c then Some (span_digits s)
      else None
  | [] => None
  end.

Definition match_integer (s : str) : option (bool * str * str) :=
  let (neg, s1) := match s with
                   | c :: s' => if c =? 45 then (true, s') else (false, s)
                   | [] => (false, s)
                   end in
  match match_digits s1 with
  | Some (ds, r) => Some (neg, ds, r)
  | None => None
  end.

Definition match_frac (s : str) : str * str :=
  match s with
  | c :: s' =>
      if c =? 46 then
        match span_digits s' with
        | ([], _) => ([], s)
        | (ds, r) => (46 :: ds, r)
        end
      else ([], s)
  | [] => ([], s)
  end.

Definition match_exp (s : str) : str * str :=
  match s with
  | e :: s' =>
      if (e =? 101) || (e =? 69) then
        let (sign, s'') := match s' with
                           | sg :: t => if (sg =? 45) || (sg =? 43)
                                        then ([sg], t) else ([], s')
                           | [] => ([], s')
                           end in
        match span_digits s'' with
        | ([], _) => ([], s)
        | (ds, r) => (e :: sign ++ ds, r)
        end
      else ([], s)
  | [] => ([], s)
  end.

Definition scan_number (rest : str) (idx : nat) : option (scan json) :=
  match match_integer rest with
  | None => None
  | Some (neg, ds, r) =>
      let (frac, r1) := match_frac r in
      let (ex, r2) := match_exp r1 in
      let sign := if neg then [45] else [] in
      let n := (length sign + length ds + length frac + length ex)%nat in
      match frac, ex with
      | [], [] =>
          let z := int_of_digits ds in
          Some (Scanned (JInt (if neg then (- z)%Z else z)) r2 (idx + n)%nat)
      | _, _ => Some (Scanned (JFloat (sign ++ ds ++ frac ++ ex)) r2 (idx + n)%nat)
      end
  end.

Definition scan_constant (rest : str) (idx : nat) : scan json :=
  match starts_with (lit "null") rest with
  | Some r => Scanned JNull r (idx + 4)%nat
  | None =>
  match starts_with (lit "true") rest with
  | Some r => Scanned (JBool true) r (idx + 4)%nat
  | None =>
  match starts_with (lit "false") rest with
  | Some r => Scanned (JBool false) r (idx + 5)%nat
  | None =>
  match scan_number rest idx with
  | Some res => res
  | None =>
  match starts_with (lit "NaN") rest with
  | Some r => Scanned (JFloat (lit "NaN")) r (idx + 3)%nat
  | None =>
  match starts_with (lit "Infinity") rest with
  | Some r => Scanned (JFloat (lit "Infinity")) r (idx + 8)%nat
  | None =>
  match starts_with (lit "-Infinity") rest with
  | Some r => Scanned (JFloat (lit "-Infinity")) r (idx + 9)%nat
  | None => StopIteration idx
  end end end end end end end.

(** [scan_once], [JSONArray] and [JSONObject].  [array_items] and
    [object_items] are the bodies of the two [while True] loops, entered
    where the next element, or the text after the quote that opens the
    next key, starts. *)
Fixpoint scan_once (fuel : nat) (rest : str) (idx : nat) {struct fuel}
  : scan json :=
  match fuel with
  | O => TooDeep
  | S fuel' =>
      match rest with
      | [] => StopIteration idx
      | c :: rest' =>
          if c =? 34 then
            match scanstring (S (length rest')) idx [] rest' (S idx) with
            | Scanned s r i => Scanned (JStr s) r i
            | StopIteration i => StopIteration i
            | ScanError m p => ScanError m p
            | TooDeep => TooDeep
            end
          else if c =? 123 then
            match skip_ws rest' (S idx) with
            | (c1 :: r, i) =>
                if c1 =? 125 then Scanned (JObject []) r (S i)
                else if c1 =? 34 then object_items fuel' [] r (S i)
                else ScanError
                       "Expecting property name enclosed in double quotes" i
            | ([], i) =>
                ScanError "Expecting property name enclosed in double quotes" i
            end
          else if c =? 91 then
            match skip_ws rest' (S idx) with
            | (c1 :: r, i) =>
                if c1 =? 93 then Scanned (JArray []) r (S i)
                else array_items fuel' [] (c1 :: r) i
            | ([], i) => array_items fuel' [] [] i
            end
          else scan_constant rest idx
      end
  end
with array_items (fuel : nat) (acc : list json) (rest : str) (idx : nat)
  {struct fuel} : scan json :=
  match fuel with
  | O => TooDeep
  | S fuel' =>
      match scan_once fuel' rest idx with
      | Scanned v r i =>
          match skip_ws r i with
          | (c :: r', i') =>
              if c =? 93 then Scanned (JArray (rev (v :: acc))) r' (S i')
              else if c =? 44 then
                let (r'', i'') := skip_ws r' (S i') in
                array_items fuel' (v :: acc) r'' i''
              else ScanError "Expecting ',' delimiter" i'
          | ([], i') => ScanError "Expecting ',' delimiter" i'
          end
      | StopIteration i => ScanError "Expecting value" i
      | ScanError m p => ScanError m p
      | TooDeep => TooDeep
      end
  end
with object_items (fuel : nat) (acc : list (str * json)) (rest : str)
  (idx : nat) {struct fuel} : scan json :=
  match fuel with
  | O => TooDeep
  | S fuel' =>
      match scanstring (S (length rest)) (idx - 1) [] rest idx with
      | Scanned key r i =>
          match skip_ws r i with
          | (c1 :: r1, i1) =>
              if c1 =? 58 then
                let (r2, i2) := skip_ws r1 (S i1) in
                match scan_once fuel' r2 i2 with
                | Scanned v r3 i3 =>
                    match skip_ws r3 i3 with
                    | (c4 :: r4, i4) =>
                        if c4 =? 125 then
                          Scanned
                            (JObject (dict_of_pairs (rev ((key, v) :: acc))))
                            r4 (S i4)
                        else if c4 =? 44 then
                          match skip_ws r4 (S i4) with
                          | (c5 :: r5, i5) =>
                              if c5 =? 34 then
                                object_items fuel' ((key, v) :: acc) r5 (S i5)
                              else
                                ScanError
                                  "Expecting property name enclosed in double quotes"
                                  i5
                          | ([], i5) =>
                              ScanError
                                "Expecting property name enclosed in double quotes"
                                i5
                          end
                        else ScanError "Expecting ',' delimiter" i4
                    | ([], i4) => ScanError "Expecting ',' delimiter" i4
                    end
                | StopIteration i => ScanError "Expecting value" i
                | ScanError m p => ScanError m p
                | TooDeep => TooDeep
                end
              else ScanError "Expecting ':' delimiter" i1
          | ([], i1) => ScanError "Expecting ':' delimiter" i1
          end
      | StopIteration i => StopIteration i
      | ScanError m p => ScanError m p
      | TooDeep => TooDeep
      end
  end.

(** [json.loads(s)]: [JSONDecoder.decode], which skips the white space
    around the value and refuses what follows it. *)
Definition json_loads (s : str) : result json :=
  if match s with c :: _ => c =? 65279 | [] => false end then
    Raise (JSONDecodeError "Unexpected UTF-8 BOM (decode using utf-8-sig)" s 0)
  else
  let (r0, i0) := skip_ws s 0%nat in
  match scan_once (2 * length s + 2) r0 i0 with
  | Scanned v r i =>
      match skip_ws r i with
      | ([], _) => Ret v
      | (_ :: _, i') => Raise (JSONDecodeError "Extra data" s i')
      end
  | StopIteration i => Raise (JSONDecodeError "Expecting value" s i)
  | ScanError m p => Raise (JSONDecodeError m s p)
  | TooDeep => Raise RecursionError
  end.


(** ** The model [Contact]

    [class Contact(BaseModel)] declares two fields, [name: str] and
    [job: str]. *)

Definition is_str_key (kv : value * value) : bool :=
  match fst kv with VStr _ => true | _ => false end.

(** The call [Contact( **rec )]: unpacking needs a mapping whose keys are
    strings. *)
Definition keyword_arguments (rec : value) : result (list (value * value)) :=
  match rec with
  | VDict items =>
      if forallb is_str_key items then Ret items
      else Raise (TypeError "keywords must be strings")
  | _ => Raise (TypeError "argument after ** must be a mapping")
  end.

Definition validate_str (data : list (value * value)) (field : string)
  : str + field_error :=
  match dict_get data (lit field) with
  | None => inr FieldMissing
  | Some (VStr s) => inl s
  | Some _ => inr FieldNotString
  end.

Definition field_errors (field : string) (r : str + field_error)
  : list (string * field_error) :=
  match r with
  | inl _ => []
  | inr e => [(field, e)]
  end.

(** Modelled from the spec: the validation that [BaseModel.__init__]
    runs, which belongs to the validation library and not to the
    repository.  Both keys must be present and hold strings; other keys
    are ignored; the error names the record and every field that is
    missing or is not a string. *)
Definition BaseModel_init (rec : value) (data : list (value * value))
  : result Contact :=
  let n := validate_str data "name" in
  let j := validate_str data "job" in
  match n, j with
  | inl n', inl j' => Ret (mkContact n' j')
  | _, _ =>
      Raise (ValidationError rec (field_errors "name" n ++ field_errors "job" j))
  end.

Definition Contact_new (rec : value) : result Contact :=
  let* data := keyword_arguments rec in
  BaseModel_init rec data.

(** ** The endpoint, three times

    [here] is [Path(__file__).parents[0]], the directory of the module;
    [fs] the state of the file system; [decoder] the JSON decoder behind
    [json.loads]. *)

Definition loads (decoder : str -> result json) (s : str) : result value :=
  let* j := decoder s in Ret (of_json j).

Definition DOTDOT : str := [DOT; DOT].

(** [open(file_path)] and [infile.read()]. *)
Definition open_read (fs : filesystem) (file_path : Path) : result str :=
  match fs file_path with
  | Missing => Raise (FileNotFoundError file_path)
  | Failing errno => Raise (OSError errno file_path)
  | BadPath => Raise (ValueError "embedded null byte")
  | Undecodable => Raise UnicodeDecodeError
  | Text buf => Ret buf
  end.

Module step_1.

Definition get_people (here : Path) (fs : filesystem)
  (decoder : str -> result json) (area : str) : result (list Contact) :=
  let full_filename :=
    truediv (truediv (truediv here DOTDOT) (lit "data_files"))
            (area ++ lit ".txt") in
  let* buf := open_read fs full_filename in
  let lines := List.filter (fun l => str_truthy (strip l)) (split NEWLINE buf) in
  let* json_recs := comprehension (loads decoder) lines in
  let* contacts := comprehension Contact_new json_recs in
  Ret contacts.

End step_1.

Module step_2.

Definition create_filepath (here : Path) (area : str) : Path :=
  truediv (truediv (truediv here DOTDOT) (lit "data_files"))
          (area ++ lit ".txt").

Definition read_lines (fs : filesystem) (file_path : Path)
  : result (list str) :=
  let* buf := open_read fs file_path in
  Ret (List.filter (fun l => str_truthy (strip l)) (split NEWLINE buf)).

Definition parse_dicts (decoder : str -> result json) (lines : list str)
  : result (list value) :=
  comprehension (loads decoder) lines.

Definition convert_to_contacts (dicts : list value) : result (list Contact) :=
  comprehension Contact_new dicts.

Definition get_people (here : Path) (fs : filesystem)
  (decoder : str -> result json) (area : str) : result (list Contact) :=
  let* lines := read_lines fs (create_filepath here area) in
  let* dicts := parse_dicts decoder lines in
  convert_to_contacts dicts.

End step_2.

(** ** The class [composable]

    The store holds, for every instance of [composable], the value of
    its attribute [func]; an instance is created at the first free
    location.  The attributes that [update_wrapper] copies ([__name__],
    [__doc__], [__wrapped__], ...) are never read and are left out.

    A plain function is called through [globals]; [None] there means
    that the call lies outside the functions and the argument types that
    are modelled.  [call] is bounded by [fuel]: [None] also means that
    the fuel ran out. *)

Abbreviation store := (list value).

Definition exec (A : Type) : Type := option (result A).

Definition exec_bind {A B : Type} (m : exec A) (k : A -> exec B) : exec B :=
  match m with
  | Some (Ret a) => k a
  | Some (Raise e) => Some (Raise e)
  | None => None
  end.

Notation "'let?' x := m 'in' k" := (exec_bind m (fun x => k))
  (at level 10, x name, m at level 100, k at level 200).

Definition getattr_func (st : store) (self : loc) : exec value :=
  match st !! self with
  | Some func => Some (Ret func)
  | None => None
  end.

(** The built-in [callable(v)]. *)
Definition callable (v : value) : bool :=
  match v with
  | VFunc _ | VComposable _ | VLamThen _ _ | VLamConst _ _ => true
  | _ => false
  end.

Section Calls.

Variable globals : string -> list value -> exec value.

(** [f( *args )].  For an instance this is [composable.__call__]. *)
Fixpoint call (fuel : nat) (st : store) (f : value) (args : list value)
  : exec value :=
  match fuel with
  | O => None
  | S fuel' =>
      match f with
      | VFunc fname => globals fname args
      | VComposable self =>
          let? func := getattr_func st self in
          call fuel' st func args
      | VLamThen self other =>
          match args with
          | [v] =>
              let? func := getattr_func st self in
              let? r := call fuel' st func [v] in
              call fuel' st other [r]
          | [] => Some (Raise (TypeError "missing 1 required positional argument"))
          | _ => Some (Raise (TypeError "takes 1 positional argument"))
          end
      | VLamConst self other =>
          match args with
          | [_] =>
              let? func := getattr_func st self in
              call fuel' st func [other]
          | [] => Some (Raise (TypeError "missing 1 required positional argument"))
          | _ => Some (Raise (TypeError "takes 1 positional argument"))
          end
      | _ => Some (Raise (TypeError "object is not callable"))
      end
  end.

(** [i() if callable(i) else i]. *)
Definition force (fuel : nat) (st : store) (i : value) : exec value :=
  if callable i then call fuel st i [] else Some (Ret i).

Fixpoint force_list (fuel : nat) (st : store) (xs : list value)
  : exec (list value) :=
  match xs with
  | [] => Some (Ret [])
  | i :: xs' =>
      let? y := force fuel st i in
      let? ys := force_list fuel st xs' in
      Some (Ret (y :: ys))
  end.

Fixpoint force_items (fuel : nat) (st : store) (items : list (value * value))
  : exec (list (value * value)) :=
  match items with
  | [] => Some (Ret [])
  | (k, v) :: items' =>
      let? y := force fuel st v in
      let? ys := force_items fuel st items' in
      Some (Ret ((k, y) :: ys))
  end.

End Calls.

Module composable.

(** [composable(func)]: [__init__] on a new instance. *)
Definition __init__ (st : store) (func : value) : value * store :=
  (VComposable (length st), st ++ [func]).

Section Methods.

Variable globals : string -> list value -> exec value.

Definition __call__ (fuel : nat) (st : store) (self : loc)
  (args : list value) : exec value :=
  let? func := getattr_func st self in
  call globals fuel st func args.

Definition __ror__ (fuel : nat) (st : store) (self : loc) (other : value)
  : exec value :=
  let args := other in
  let? args :=
    match args with
    | VList xs | VTuple xs =>
        let? ys := force_list globals fuel st xs in Some (Ret (VList ys))
    | _ => Some (Ret args)
    end in
  let? args :=
    match args with
    | VDict items =>
        let? ys := force_items globals fuel st items in Some (Ret (VDict ys))
    | _ => Some (Ret args)
    end in
  let? func := getattr_func st self in
  call globals fuel st func [args].

End Methods.

Definition __or__ (st : store) (self : loc) (other : value) : value * store :=
  if callable other then __init__ st (VLamThen self other)
  else __init__ st (VLamConst self other).

End composable.

(** The expression [a | b] when one operand is an instance of
    [composable]: the left operand's [__or__] if it is one, else the
    right operand's [__ror__] (no built-in type accepts a [composable]
    as right operand).  The operator between two other values is not
    modelled. *)
Definition binary_or (globals : string -> list value -> exec value)
  (fuel : nat) (st : store) (a b : value) : exec (value * store) :=
  match a, b with
  | VComposable self, _ => Some (Ret (composable.__or__ st self b))
  | _, VComposable self =>
      let? r := composable.__ror__ globals fuel st self a in
      Some (Ret (r, st))
  | _, _ => None
  end.

Module step_3.

(** The four decorated functions, as plain functions before decoration.
    They are the stage functions of [step_2.py], word for word. *)
Definition create_filepath := step_2.create_filepath.
Definition read_lines := step_2.read_lines.
Definition parse_dicts := step_2.parse_dicts.
Definition convert_to_contacts := step_2.convert_to_contacts.

Definition as_str (v : value) : option str :=
  match v with VStr s => Some s | _ => None end.

Fixpoint as_str_list (xs : list value) : option (list str) :=
  match xs with
  | [] => Some []
  | x :: xs' =>
      match as_str x, as_str_list xs' with
      | Some s, Some ss => Some (s :: ss)
      | _, _ => None
      end
  end.

Definition ret_map {A : Type} (inj : A -> value) (r : result A) : exec value :=
  match r with
  | Ret a => Some (Ret (inj a))
  | Raise e => Some (Raise e)
  end.

(** The plain functions of the module, on arguments of the annotated
    types. *)
Definition globals (here : Path) (fs : filesystem)
  (decoder : str -> result json) (fname : string) (args : list value)
  : exec value :=
  if String.eqb fname "create_filepath" then
    match args with
    | [VStr area] => Some (Ret (VPath (create_filepath here area)))
    | _ => None
    end
  else if String.eqb fname "read_lines" then
    match args with
    | [VPath file_path] =>
        ret_map (fun ls => VList (map VStr ls)) (read_lines fs file_path)
    | _ => None
    end
  else if String.eqb fname "parse_dicts" then
    match args with
    | [VList xs] =>
        match as_str_list xs with
        | Some lines => ret_map VList (parse_dicts decoder lines)
        | None => None
        end
    | _ => None
    end
  else if String.eqb fname "convert_to_contacts" then
    match args with
    | [VList dicts] =>
        ret_map (fun cs => VList (map VContact cs)) (convert_to_contacts dicts)
    | _ => None
    end
  else None.

(** The module after import: each [@composable] creates one instance. *)
Record module_state : Type := mkModule {
  g_create_filepath : value;
  g_read_lines : value;
  g_parse_dicts : value;
  g_convert_to_contacts : value;
  g_store : store
}.

Definition import_module : module_state :=
  let (f1, st1) := composable.__init__ [] (VFunc "create_filepath") in
  let (f2, st2) := composable.__init__ st1 (VFunc "read_lines") in
  let (f3, st3) := composable.__init__ st2 (VFunc "parse_dicts") in
  let (f4, st4) := composable.__init__ st3 (VFunc "convert_to_contacts") in
  mkModule f1 f2 f3 f4 st4.

(** [area | create_filepath | read_lines | parse_dicts |
    convert_to_contacts], which Python groups to the left. *)
Definition get_people (fuel : nat) (here : Path) (fs : filesystem)
  (decoder : str -> result json) (area : str) : exec value :=
  let m := import_module in
  let g := globals here fs decoder in
  let? r1 := binary_or g fuel (g_store m) (VStr area) (g_create_filepath m) in
  let? r2 := binary_or g fuel (snd r1) (fst r1) (g_read_lines m) in
  let? r3 := binary_or g fuel (snd r2) (fst r2) (g_parse_dicts m) in
  let? r4 := binary_or g fuel (snd r3) (fst r3) (g_convert_to_contacts m) in
  Some (Ret (fst r4)).

End step_3.

(** ** Notions of the specification *)

(** A segment is blank when it is empty or made of white space only. *)
Definition is_blank (seg : str) : bool :=
  match seg with
  | [] => true
  | _ :: _ => forallb isspace seg
  end.

(** The text whose segments are [segs], with [sep] between them. *)
Fixpoint join (sep : N) (segs : list str) : str :=
  match segs with
  | [] => []
  | [seg] => seg
  | seg :: segs' => seg ++ sep :: join sep segs'
  end.

(** The segments kept by the line reader, as the specification words
    them. *)
Definition nonblank_segments (buf : str) : list str :=
  List.filter (fun seg => negb (is_blank seg)) (split NEWLINE buf).

(** The value of a key in a JSON object. *)
Definition object_field (items : list (str * json)) (k : string)
  : option json :=
  match List.find (fun kv => str_eqb (fst kv) (lit k)) items with
  | Some kv => Some (snd kv)
  | None => None
  end.

(** A record satisfies the schema of [Contact] when [name] and [job] are
    present and hold strings. *)
Definition has_contact (items : list (str * json)) (c : Contact) : Prop :=
  object_field items "name" = Some (JStr (name c))
  /\ object_field items "job" = Some (JStr (job c)).

Definition schema_ok (items : list (str * json)) : Prop :=
  exists c, has_contact items c.

(** A line is a well-formed JSON object holding the contact [c]. *)
Definition line_holds (decoder : str -> result json) (line : str)
  (c : Contact) : Prop :=
  exists items, decoder line = Ret (JObject items) /\ has_contact items c.

Definition record_value (items : list (str * json)) : value :=
  of_json (JObject items).

(** The outcome of an endpoint as the value or the exception that the
    caller receives. *)
Definition contacts_value (r : result (list Contact)) : result value :=
  match r with
  | Ret cs => Ret (VList (map VContact cs))
  | Raise e => Raise e
  end.

(** A value is closed below [n] when the objects it can call lie at
    locations below [n]; a store is closed when each of its objects
    reaches objects of the store only. *)
Fixpoint closed_below (n : nat) (v : value) : bool :=
  match v with
  | VComposable l => Nat.ltb l n
  | VLamThen self other => Nat.ltb self n && closed_below n other
  | VLamConst self _ => Nat.ltb self n
  | _ => true
  end.

Definition store_closed (st : store) : bool :=
  forallb (closed_below (length st)) st.

(** [f( *args )] returns or raises [r]: some fuel is enough for it. *)
Definition runs (globals : string -> list value -> exec value) (st : store)
  (f : value) (args : list value) (r : result value) : Prop :=
  exists fuel, call globals fuel st f args = Some r.

(** [y] is [i() if callable(i) else i]. *)
Definition forced (globals : string -> list value -> exec value) (st : store)
  (i y : value) : Prop :=
  if callable i then runs globals st i [] (Ret y) else y = i.

(** The same for an item of a [dict]: the key stays, the value is
    forced. *)
Definition forced_item (globals : string -> list value -> exec value)
  (st : store) (kv kv' : value * value) : Prop :=
  fst kv' = fst kv /\ forced globals st (snd kv) (snd kv').

(** Forcing the elements [xs] from left to right stops at an element
    that is callable and raises [e]. *)
Definition forcing_raises (globals : string -> list value -> exec value)
  (st : store) (xs : list value) (e : exn) : Prop :=
  exists pre x post ys,
    xs = pre ++ x :: post
    /\ Forall2 (forced globals st) pre ys
    /\ callable x = true
    /\ runs globals st x [] (Raise e).

(** [other | self] returns or raises [r]. *)
Definition ror_runs (globals : string -> list value -> exec value)
  (st : store) (self : loc) (other : value) (r : result value) : Prop :=
  exists fuel, composable.__ror__ globals fuel st self other = Some r.

(** A module of plain functions for the examples:
    [def double(n): return 2 * n], [def succ(n): return n + 1],
    [def five(): return 5], [def identity(x): return x] and
    [def pair(x): return (x, x)]. *)
Definition example_globals (fname : string) (args : list value)
  : exec value :=
  if String.eqb fname "double" then
    match args with [VInt n] => Some (Ret (VInt (2 * n))) | _ => None end
  else if String.eqb fname "succ" then
    match args with [VInt n] => Some (Ret (VInt (n + 1))) | _ => None end
  else if String.eqb fname "five" then
    match args with [] => Some (Ret (VInt 5)) | _ => None end
  else if String.eqb fname "identity" then
    match args with [x] => Some (Ret x) | _ => None end
  else if String.eqb fname "pair" then
    match args with [x] => Some (Ret (VTuple [x; x])) | _ => None end
  else None.

(** An expression built from names of instances with [|], in any
    grouping. *)
Inductive chain : Type :=
| Stage (l : loc)
| Pipe (a b : chain).

(** Its evaluation: the left operand, then the right operand, then the
    operator. *)
Fixpoint eval_chain (globals : string -> list value -> exec value)
  (fuel : nat) (st : store) (c : chain) : exec (value * store) :=
  match c with
  | Stage l => Some (Ret (VComposable l, st))
  | Pipe a b =>
      let? ra := eval_chain globals fuel st a in
      let? rb := eval_chain globals fuel (snd ra) b in
      binary_or globals fuel (snd rb) (fst ra) (fst rb)
  end.

(** The stages of a chain, from left to right. *)
Fixpoint leaves (c : chain) : list loc :=
  match c with
  | Stage l => [l]
  | Pipe a b => leaves a ++ leaves b
  end.

Definition valid_stages (st : store) (ls : list loc) : bool :=
  forallb (fun l => Nat.ltb l (length st)) ls.

(** Calling the stages [ls] one after the other, each on the result of
    the one before, starting from [x]; an exception ends the sequence. *)
Fixpoint seq_runs (globals : string -> list value -> exec value)
  (st : store) (ls : list loc) (x : value) (r : result value) : Prop :=
  match ls with
  | [] => r = Ret x
  | l :: ls' =>
      (exists y, runs globals st (VComposable l) [x] (Ret y)
                 /\ seq_runs globals st ls' y r)
      \/ (exists e, r = Raise e
                    /\ runs globals st (VComposable l) [x] (Raise e))
  end.

(** The items of the [dict] that a JSON object decodes to. *)
Definition dict_items (items : list (str * json)) : list (value * value) :=
  map (fun kv => match kv with (k, v) => (VStr k, of_json v) end) items.

(** The fields that the error of a record lists. *)
Definition names_field (items : list (str * json))
  (errors : list (string * field_error)) (f : string) : Prop :=
  (In (f, FieldMissing) errors <-> object_field items f = None)
  /\ (In (f, FieldNotString) errors <->
      exists v, object_field items f = Some v /\ forall s, v <> JStr s).

(** What the validation finds in one field of a record. *)
Definition check_field (items : list (str * json)) (f : string)
  : str + field_error :=
  match object_field items f with
  | None => inr FieldMissing
  | Some (JStr s) => inl s
  | Some _ => inr FieldNotString
  end.

(** The outcome [res] of scanning [rest] is not [TooDeep], and what it
    leaves is shorter than [rest]. *)
Definition consumes {A : Type} (res : scan A) (rest : str) : Prop :=
  match res with
  | Scanned _ r _ => (length r < length rest)%nat
  | TooDeep => False
  | _ => True
  end.

(** The first half of [__ror__]: the argument that the first stage
    receives when [other] is piped in. *)
Definition force_args (globals : string -> list value -> exec value)
  (fuel : nat) (st : store) (other : value) : exec value :=
  match other with
  | VList xs | VTuple xs =>
      let? ys := force_list globals fuel st xs in Some (Ret (VList ys))
  | VDict items =>
      let? ys := force_items globals fuel st items in Some (Ret (VDict ys))
  | _ => Some (Ret other)
  end.

(** The elements that piping [x] in would call reach objects of the
    store only. *)
Definition input_closed (st : store) (x : value) : bool :=
  match x with
  | VList xs | VTuple xs => forallb (closed_below (length st)) xs
  | VDict items => forallb (closed_below (length st)) (map snd items)
  | _ => true
  end.

(** The number of [|] operators of a chain. *)
Fixpoint pipes (c : chain) : nat :=
  match c with
  | Stage _ => 0
  | Pipe a b => S (pipes a + pipes b)
  end.

(** A value that [|] neither forces nor chains: not a [list], a
    [tuple] or a [dict], and not an instance of [composable]. *)
Definition is_scalar (v : value) : bool :=
  match v with
  | VList _ | VTuple _ | VDict _ | VComposable _ => false
  | _ => true
  end.

(** The expression [x | f | g], which Python groups as [(x | f) | g],
    for two instances [f] and [g]. *)
Definition eager_pipe (globals : string -> list value -> exec value)
  (fuel : nat) (st : store) (x : value) (f g : loc) : exec (value * store) :=
  let? r1 := binary_or globals fuel st x (VComposable f) in
  binary_or globals fuel (snd r1) (fst r1) (VComposable g).

(** * Properties *)

(** ** Strings and lines *)

Lemma lstrip_nil_iff (s : str) : lstrip s = [] <-> forallb isspace s = true.
Proof.
  induction s as [|c s IH]; simpl; [tauto|].
  destruct (isspace c); simpl; [exact IH|].
  split; discriminate.
Qed.

Lemma forallb_rev {A : Type} (f : A -> bool) (l : list A) :
  forallb f (rev l) = forallb f l.
Proof.
  induction l as [|a l IH]; simpl; [reflexivity|].
  rewrite forallb_app, IH. simpl.
  rewrite andb_true_r. apply andb_comm.
Qed.

Lemma lstrip_spaces (s : str) :
  forallb isspace s = false -> forallb isspace (lstrip s) = false.
Proof.
  induction s as [|c s IH]; simpl; [discriminate|].
  destruct (isspace c) eqn:E; simpl; [exact IH|].
  rewrite E. reflexivity.
Qed.

Lemma strip_truthy (s : str) :
  str_truthy (strip s) = negb (forallb isspace s).
Proof.
  unfold strip, rstrip.
  destruct (forallb isspace s) eqn:E; simpl.
  - apply lstrip_nil_iff in E. rewrite E. reflexivity.
  - apply lstrip_spaces in E.
    rewrite <- forallb_rev in E.
    destruct (lstrip (rev (lstrip s))) as [|c r] eqn:L.
    + apply lstrip_nil_iff in L. congruence.
    + simpl. destruct (rev r ++ [c]) eqn:R; [|reflexivity].
      destruct (rev r); discriminate.
Qed.

Lemma strip_truthy_blank (s : str) :
  str_truthy (strip s) = negb (is_blank s).
Proof.
  rewrite strip_truthy. destruct s; reflexivity.
Qed.

Lemma split_not_nil (sep : N) (s : str) : split sep s <> [].
Proof.
  destruct s as [|c s]; simpl; [discriminate|].
  destruct (c =? sep); [discriminate|].
  destruct (split sep s); discriminate.
Qed.

Lemma join_cons (sep : N) (seg : str) (segs : list str) :
  segs <> [] -> join sep (seg :: segs) = seg ++ sep :: join sep segs.
Proof. destruct segs; [congruence|reflexivity]. Qed.

Lemma join_split (sep : N) (s : str) : join sep (split sep s) = s.
Proof.
  induction s as [|c s IH]; simpl; [reflexivity|].
  destruct (c =? sep) eqn:E.
  - apply N.eqb_eq in E. subst c.
    rewrite join_cons by apply split_not_nil.
    simpl. now rewrite IH.
  - destruct (split sep s) as [|seg segs] eqn:S.
    + now apply split_not_nil in S.
    + destruct segs as [|seg' segs'].
      * simpl in *. now rewrite IH.
      * simpl in *. now rewrite IH.
Qed.

Lemma split_no_sep (sep : N) (s : str) :
  Forall (fun seg => ~ In sep seg) (split sep s).
Proof.
  induction s as [|c s IH]; simpl.
  - constructor; [intros []|constructor].
  - destruct (c =? sep) eqn:E.
    + constructor; [intros []|exact IH].
    + apply N.eqb_neq in E.
      destruct (split sep s) as [|seg segs].
      * constructor; [|constructor]. intros [H|[]]. congruence.
      * inversion IH; subst. constructor; [|assumption].
        intros [H|H]; [congruence|contradiction].
Qed.

Lemma split_app_sep (sep : N) (seg rest : str) :
  ~ In sep seg -> split sep (seg ++ sep :: rest) = seg :: split sep rest.
Proof.
  induction seg as [|c seg IH]; simpl; intros H.
  - now rewrite N.eqb_refl.
  - destruct (c =? sep) eqn:E.
    + apply N.eqb_eq in E. tauto.
    + rewrite IH by tauto. reflexivity.
Qed.

Lemma split_single (sep : N) (seg : str) :
  ~ In sep seg -> split sep seg = [seg].
Proof.
  induction seg as [|c seg IH]; simpl; intros H; [reflexivity|].
  destruct (c =? sep) eqn:E.
  - apply N.eqb_eq in E. tauto.
  - rewrite IH by tauto. reflexivity.
Qed.

Lemma split_join (sep : N) (segs : list str) :
  segs <> [] -> Forall (fun seg => ~ In sep seg) segs ->
  split sep (join sep segs) = segs.
Proof.
  induction segs as [|seg segs IH]; [congruence|].
  intros _ H. inversion H; subst.
  destruct segs as [|seg' segs'].
  - simpl. now apply split_single.
  - rewrite join_cons by discriminate.
    rewrite split_app_sep by assumption.
    rewrite IH; [reflexivity|discriminate|assumption].
Qed.

Lemma read_lines_text (fs : filesystem) (file_path : Path) (buf : str) :
  fs file_path = Text buf ->
  step_2.read_lines fs file_path = Ret (nonblank_segments buf).
Proof.
  intros H. unfold step_2.read_lines, open_read, nonblank_segments.
  rewrite H. simpl. f_equal.
  apply filter_ext. intros l. apply strip_truthy_blank.
Qed.

(** C3.  For every file content [buf], [read_lines] (of [step_2.py] and
    of [step_3.py]) returns the segments of [buf] between line feeds
    that are neither empty nor made of white space only, in their order:
    the segments joined by line feeds give [buf] back and none contains
    a line feed; no blank segment is in the output; and for any mixture
    [segs] of blank and non-blank lines written to the file, the output
    is [segs] without its blank lines, so its length counts the
    non-blank lines only. *)
Theorem read_lines_nonblank (fs : filesystem) (file_path : Path) (buf : str) :
  fs file_path = Text buf ->
  step_2.read_lines fs file_path = Ret (nonblank_segments buf)
  /\ step_3.read_lines fs file_path = Ret (nonblank_segments buf)
  /\ join NEWLINE (split NEWLINE buf) = buf
  /\ Forall (fun seg => ~ In NEWLINE seg) (split NEWLINE buf)
  /\ Forall (fun l => l <> [] /\ forallb isspace l = false)
            (nonblank_segments buf)
  /\ (forall segs : list str,
        segs <> [] -> Forall (fun seg => ~ In NEWLINE seg) segs ->
        buf = join NEWLINE segs ->
        nonblank_segments buf = List.filter (fun seg => negb (is_blank seg)) segs
        /\ length (nonblank_segments buf)
           = (length segs - length (List.filter is_blank segs))%nat).
Proof.
  intros H.
  split; [now apply read_lines_text|].
  split; [now apply read_lines_text|].
  split; [apply join_split|].
  split; [apply split_no_sep|].
  split.
  - apply List.Forall_forall. intros l Hl.
    apply filter_In in Hl. destruct Hl as [_ Hl].
    destruct l as [|c l]; [discriminate|].
    split; [discriminate|].
    simpl in Hl. now apply negb_true_iff in Hl.
  - intros segs Hne Hno ->.
    unfold nonblank_segments. rewrite split_join by assumption.
    split; [reflexivity|].
    clear. induction segs as [|seg segs IH]; [reflexivity|].
    simpl. destruct (is_blank seg); simpl.
    + rewrite IH. reflexivity.
    + rewrite IH.
      pose proof (filter_length_le is_blank segs). lia.
Qed.

Lemma read_lines_nonblank_witness :
  step_2.read_lines (fun _ => Text (lit "a\n\n \t\nb c\n")) (mkPath false [])
  = Ret [lit "a"; lit "b c"].
Proof.
  exact (proj1 (read_lines_nonblank (fun _ => Text (lit "a\n\n \t\nb c\n"))
                  (mkPath false []) (lit "a\n\n \t\nb c\n") eq_refl)).
Defined.

(** ** List comprehensions *)

Lemma comprehension_Ret {A B : Type} (f : A -> result B) (xs : list A)
  (ys : list B) :
  comprehension f xs = Ret ys <-> Forall2 (fun x y => f x = Ret y) xs ys.
Proof.
  revert ys. induction xs as [|x xs IH]; intros ys; simpl.
  - split; intros H; [injection H as <-; constructor|now inversion H].
  - destruct (f x) as [y|e] eqn:Fx; simpl.
    + destruct (comprehension f xs) as [zs|e] eqn:C; simpl.
      * split; intros H.
        -- injection H as <-. constructor; [assumption|now apply IH].
        -- inversion H; subst. apply IH in H4. congruence.
      * split; intros H; [discriminate|].
        inversion H; subst. apply IH in H4. discriminate.
    + split; intros H; [discriminate|]. inversion H; subst. congruence.
Qed.

Lemma comprehension_Raise {A B : Type} (f : A -> result B) (xs : list A)
  (e : exn) :
  comprehension f xs = Raise e <->
  exists pre x post ys,
    xs = pre ++ x :: post
    /\ Forall2 (fun x y => f x = Ret y) pre ys
    /\ f x = Raise e.
Proof.
  induction xs as [|x xs IH]; simpl.
  - split; [discriminate|].
    intros (pre & x & post & ys & H & _). now destruct pre.
  - destruct (f x) as [y|e'] eqn:Fx; simpl.
    + destruct (comprehension f xs) as [zs|e'] eqn:C; simpl.
      * split; [discriminate|].
        intros (pre & x' & post & ys & H & Hpre & Hx).
        destruct pre as [|p pre]; simpl in H; injection H as -> ->.
        -- congruence.
        -- inversion Hpre; subst.
           enough (@Ret (list B) zs = Raise e) by discriminate.
           apply IH. eauto 10.
      * split.
        -- intros H. injection H as ->.
           destruct (proj1 IH eq_refl) as (pre & x' & post & ys & -> & Hpre & Hx).
           exists (x :: pre), x', post, (y :: ys).
           repeat split; [|assumption]. now constructor.
        -- intros (pre & x' & post & ys & H & Hpre & Hx).
           destruct pre as [|p pre]; simpl in H; injection H as -> ->.
           ++ congruence.
           ++ inversion Hpre; subst. apply IH. eauto 10.
    + split.
      * intros H. injection H as ->.
        exists [], x, xs, []. repeat split; [constructor|assumption].
      * intros (pre & x' & post & ys & H & Hpre & Hx).
        destruct pre as [|p pre]; simpl in H; injection H as -> ->.
        -- congruence.
        -- inversion Hpre; subst. congruence.
Qed.

Lemma comprehension_length {A B : Type} (f : A -> result B) (xs : list A)
  (ys : list B) :
  comprehension f xs = Ret ys -> length ys = length xs.
Proof.
  intros H. apply comprehension_Ret in H.
  induction H; simpl; congruence.
Qed.

(** ** Records and the model [Contact] *)

Lemma record_value_eq (items : list (str * json)) :
  record_value items = VDict (dict_items items).
Proof. reflexivity. Qed.

Lemma keyword_arguments_record (items : list (str * json)) :
  keyword_arguments (record_value items) = Ret (dict_items items).
Proof.
  rewrite record_value_eq. simpl.
  replace (forallb is_str_key (dict_items items)) with true; [reflexivity|].
  symmetry. induction items as [|[k v] items IH]; [reflexivity|exact IH].
Qed.

Lemma dict_get_record (items : list (str * json)) (f : string) :
  dict_get (dict_items items) (lit f) = option_map of_json (object_field items f).
Proof.
  unfold dict_get, object_field.
  induction items as [|[k v] items IH]; [reflexivity|].
  simpl. destruct (str_eqb k (lit f)); [reflexivity|exact IH].
Qed.

Lemma of_json_str (j : json) (s : str) : of_json j = VStr s <-> j = JStr s.
Proof. destruct j; simpl; split; intros H; try discriminate; congruence. Qed.

Lemma validate_str_record (items : list (str * json)) (f : string) :
  validate_str (dict_items items) f
  = match object_field items f with
    | None => inr FieldMissing
    | Some (JStr s) => inl s
    | Some _ => inr FieldNotString
    end.
Proof.
  unfold validate_str. rewrite dict_get_record.
  destruct (object_field items f) as [j|]; [|reflexivity].
  destruct j; reflexivity.
Qed.

Lemma Contact_new_ok (items : list (str * json)) (c : Contact) :
  has_contact items c -> Contact_new (record_value items) = Ret c.
Proof.
  intros [Hn Hj]. unfold Contact_new.
  rewrite keyword_arguments_record. simpl.
  unfold BaseModel_init. rewrite !validate_str_record, Hn, Hj.
  now destruct c.
Qed.

Lemma Contact_new_Ret (items : list (str * json)) (c : Contact) :
  Contact_new (record_value items) = Ret c -> has_contact items c.
Proof.
  unfold Contact_new. rewrite keyword_arguments_record. simpl.
  unfold BaseModel_init, has_contact. rewrite !validate_str_record.
  destruct (object_field items "name") as [[]|];
    destruct (object_field items "job") as [[]|];
    simpl; try discriminate.
  intros H. injection H as <-. now split.
Qed.

Lemma In_field_errors (items : list (str * json)) (f g : string)
  (k : field_error) :
  In (g, k) (field_errors f (check_field items f)) <->
  g = f /\ ((k = FieldMissing /\ object_field items f = None)
            \/ (k = FieldNotString
                /\ exists v, object_field items f = Some v
                             /\ forall s, v <> JStr s)).
Proof.
  unfold check_field.
  destruct (object_field items f) as [j|] eqn:E.
  - destruct j; simpl;
      try (split;
           [intros [H|[]]; injection H as <- <-; split; [reflexivity|];
            right; split; [reflexivity|]; eexists; split;
            [reflexivity|discriminate]
           |intros [-> [[_ H]|[-> _]]]; [discriminate H|now left]]).
    split; [intros []|].
    intros [_ [[_ H]|[_ (v & Hv & Hs)]]]; [discriminate H|].
    injection Hv as <-. now apply (Hs s).
  - simpl. split.
    + intros [H|[]]. injection H as <- <-. split; [reflexivity|]. now left.
    + intros [-> [[-> _]|[_ (v & Hv & _)]]]; [now left|discriminate Hv].
Qed.

Lemma check_field_ok (items : list (str * json)) (f : string) (s : str) :
  check_field items f = inl s <-> object_field items f = Some (JStr s).
Proof.
  unfold check_field.
  destruct (object_field items f) as [[]|]; split; intros H;
    try discriminate; congruence.
Qed.

Lemma Contact_new_bad (items : list (str * json)) :
  ~ schema_ok items ->
  exists errors,
    Contact_new (record_value items)
    = Raise (ValidationError (record_value items) errors)
    /\ errors <> []
    /\ names_field items errors "name"
    /\ names_field items errors "job"
    /\ (forall f k, In (f, k) errors -> f = "name"%string \/ f = "job"%string).
Proof.
  intros Hbad. unfold Contact_new.
  rewrite keyword_arguments_record. simpl.
  unfold BaseModel_init. rewrite !validate_str_record.
  fold (check_field items "name"). fold (check_field items "job").
  exists (field_errors "name" (check_field items "name")
          ++ field_errors "job" (check_field items "job")).
  split; [|split; [|split; [|split]]].
  - destruct (check_field items "name") as [n|] eqn:En;
      destruct (check_field items "job") as [j|] eqn:Ej; try reflexivity.
    exfalso. apply Hbad. exists (mkContact n j).
    split; simpl; now apply check_field_ok.
  - destruct (check_field items "name") as [n|] eqn:En;
      destruct (check_field items "job") as [j|] eqn:Ej; try discriminate.
    exfalso. apply Hbad. exists (mkContact n j).
    split; simpl; now apply check_field_ok.
  - split; rewrite in_app_iff, !In_field_errors.
    + split; [intros [[_ [[_ H]|[H _]]]|[H _]]|intros H];
        try discriminate; [assumption|]. left. split; [reflexivity|]. now left.
    + split; [intros [[_ [[H _]|[_ H]]]|[H _]]|intros H];
        try discriminate; [assumption|]. left. split; [reflexivity|]. now right.
  - split; rewrite in_app_iff, !In_field_errors.
    + split; [intros [[H _]|[_ [[_ H]|[H _]]]]|intros H];
        try discriminate; [assumption|]. right. split; [reflexivity|]. now left.
    + split; [intros [[H _]|[_ [[H _]|[_ H]]]]|intros H];
        try discriminate; [assumption|]. right. split; [reflexivity|]. now right.
  - intros f k. rewrite in_app_iff, !In_field_errors. tauto.
Qed.

Lemma convert_records_ok (recs : list (list (str * json)))
  (contacts : list Contact) :
  Forall2 has_contact recs contacts ->
  step_2.convert_to_contacts (map record_value recs) = Ret contacts.
Proof.
  intros H. apply comprehension_Ret.
  induction H; simpl; constructor; [now apply Contact_new_ok|assumption].
Qed.

(** C5.  For every sequence of parsed records (JSON objects), the
    converter stage fails with a [ValidationError] that identifies the
    first record lacking [name] or [job] or holding a non-string there,
    and lists exactly its missing and its mistyped fields among [name]
    and [job]; no partial result is returned, whatever records come
    before or after.  Otherwise, and only then, it returns one
    [Contact] per record, in order, holding the two strings of the
    record. *)
Theorem convert_to_contacts_batch (recs : list (list (str * json))) :
  (forall pre items post,
      recs = pre ++ items :: post ->
      Forall schema_ok pre -> ~ schema_ok items ->
      exists errors,
        step_2.convert_to_contacts (map record_value recs)
        = Raise (ValidationError (record_value items) errors)
        /\ errors <> []
        /\ names_field items errors "name"
        /\ names_field items errors "job"
        /\ (forall f k, In (f, k) errors ->
                        f = "name"%string \/ f = "job"%string))
  /\ (forall contacts,
        step_2.convert_to_contacts (map record_value recs) = Ret contacts
        <-> Forall2 has_contact recs contacts)
  /\ (Forall schema_ok recs ->
      exists contacts,
        step_2.convert_to_contacts (map record_value recs) = Ret contacts
        /\ length contacts = length recs).
Proof.
  split; [|split].
  - intros pre items post -> Hpre Hbad.
    destruct (Contact_new_bad items Hbad) as (errors & Hnew & Hrest).
    exists errors. split; [|exact Hrest].
    apply comprehension_Raise.
    assert (exists cs, Forall2 has_contact pre cs) as [cs Hcs].
    { clear -Hpre. induction Hpre as [|x l [c Hc] _ [cs IH]].
      - exists []. constructor.
      - exists (c :: cs). now constructor. }
    exists (map record_value pre), (record_value items),
      (map record_value post), cs.
    split; [now rewrite map_app|]. split; [|assumption].
    clear -Hcs. induction Hcs; simpl; constructor;
      [now apply Contact_new_ok|assumption].
  - intros contacts. split; [|apply convert_records_ok].
    intros H. apply comprehension_Ret in H.
    revert contacts H. induction recs as [|items recs IH];
      intros contacts H; inversion H; subst; constructor.
    + now apply Contact_new_Ret.
    + now apply IH.
  - intros Hall.
    assert (exists cs, Forall2 has_contact recs cs) as [cs Hcs].
    { clear -Hall. induction Hall as [|x l [c Hc] _ [cs IH]].
      - exists []. constructor.
      - exists (c :: cs). now constructor. }
    exists cs. split; [now apply convert_records_ok|].
    symmetry. eapply Forall2_length. eassumption.
Qed.

Lemma convert_to_contacts_batch_witness :
  exists errors,
    step_2.convert_to_contacts
      (map record_value [[(lit "name", JStr (lit "Bo")); (lit "job", JStr (lit "Pilot"))];
                         [(lit "name", JStr (lit "Ann"))];
                         [(lit "job", JInt 3)]])
    = Raise (ValidationError (record_value [(lit "name", JStr (lit "Ann"))]) errors)
    /\ errors <> []
    /\ names_field [(lit "name", JStr (lit "Ann"))] errors "name"
    /\ names_field [(lit "name", JStr (lit "Ann"))] errors "job"
    /\ (forall f k, In (f, k) errors -> f = "name"%string \/ f = "job"%string).
Proof.
  apply (proj1 (convert_to_contacts_batch _)
           [[(lit "name", JStr (lit "Bo")); (lit "job", JStr (lit "Pilot"))]]
           [(lit "name", JStr (lit "Ann"))]
           [[(lit "job", JInt 3)]] eq_refl).
  - constructor; [|constructor].
    exists (mkContact (lit "Bo") (lit "Pilot")).
    split; vm_compute; reflexivity.
  - intros [c [_ H]]. discriminate H.
Defined.

(** ** The three endpoints *)

Lemma step_1_step_2 (here : Path) (fs : filesystem)
  (decoder : str -> result json) (area : str) :
  step_1.get_people here fs decoder area
  = step_2.get_people here fs decoder area.
Proof.
  unfold step_1.get_people, step_2.get_people, step_2.read_lines,
    step_2.parse_dicts, step_2.convert_to_contacts, step_2.create_filepath.
  destruct (open_read fs _) as [buf|e]; simpl; [|reflexivity].
  destruct (comprehension (loads decoder) _) as [recs|e]; simpl; [|reflexivity].
  destruct (comprehension Contact_new recs); reflexivity.
Qed.

Lemma callable_of_json (j : json) : callable (of_json j) = false.
Proof. destruct j; reflexivity. Qed.

Lemma force_list_plain (g : string -> list value -> exec value)
  (fuel : nat) (st : store) (xs : list value) :
  Forall (fun v => callable v = false) xs ->
  force_list g fuel st xs = Some (Ret xs).
Proof.
  induction 1 as [|x xs Hx _ IH]; simpl; [reflexivity|].
  unfold force. rewrite Hx. simpl. rewrite IH. reflexivity.
Qed.

Lemma as_str_list_map (ls : list str) :
  step_3.as_str_list (map VStr ls) = Some ls.
Proof.
  induction ls as [|l ls IH]; simpl; [reflexivity|]. now rewrite IH.
Qed.

Lemma parse_dicts_plain (decoder : str -> result json) (lines : list str)
  (vs : list value) :
  step_2.parse_dicts decoder lines = Ret vs ->
  Forall (fun v => callable v = false) vs.
Proof.
  intros H. apply comprehension_Ret in H.
  induction H as [|l v ls vs Hl _ IH]; constructor; [|exact IH].
  unfold loads in Hl. destruct (decoder l) as [j|]; [|discriminate].
  injection Hl as <-. apply callable_of_json.
Qed.

Lemma ror_scalar (g : string -> list value -> exec value) (fuel : nat)
  (st : store) (self : loc) (fname : string) (other : value) :
  st !! self = Some (VFunc fname) ->
  match other with
  | VList _ | VTuple _ | VDict _ => False
  | _ => True
  end ->
  composable.__ror__ g (S fuel) st self other = g fname [other].
Proof.
  intros Hself Hother. unfold composable.__ror__, getattr_func.
  destruct other; try contradiction; simpl; rewrite Hself; simpl;
    now destruct (g fname _) as [[]|].
Qed.

Lemma ror_list_plain (g : string -> list value -> exec value) (fuel : nat)
  (st : store) (self : loc) (fname : string) (xs : list value) :
  st !! self = Some (VFunc fname) ->
  Forall (fun v => callable v = false) xs ->
  composable.__ror__ g (S fuel) st self (VList xs) = g fname [VList xs].
Proof.
  intros Hself Hxs. unfold composable.__ror__, getattr_func.
  rewrite force_list_plain by assumption. simpl. rewrite Hself. simpl.
  now destruct (g fname _) as [[]|].
Qed.

Lemma step_3_step_2 (fuel : nat) (here : Path) (fs : filesystem)
  (decoder : str -> result json) (area : str) :
  step_3.get_people (S fuel) here fs decoder area
  = Some (contacts_value (step_2.get_people here fs decoder area)).
Proof.
  unfold step_3.get_people, step_2.get_people.
  set (g := step_3.globals here fs decoder).
  cbn [step_3.import_module composable.__init__ step_3.g_store
       step_3.g_create_filepath step_3.g_read_lines step_3.g_parse_dicts
       step_3.g_convert_to_contacts length app binary_or].
  rewrite (ror_scalar g fuel _ 0%nat "create_filepath"%string) by (reflexivity || exact I).
  change (g "create_filepath"%string [VStr area])
    with (Some (Ret (VPath (step_2.create_filepath here area)))).
  cbn [exec_bind fst snd binary_or].
  rewrite (ror_scalar g fuel _ 1%nat "read_lines"%string) by (reflexivity || exact I).
  change (g "read_lines"%string [VPath (step_2.create_filepath here area)])
    with (step_3.ret_map (fun ls => VList (map VStr ls))
            (step_2.read_lines fs (step_2.create_filepath here area))).
  destruct (step_2.read_lines fs _) as [lines|e]; [|reflexivity].
  cbn [step_3.ret_map exec_bind fst snd binary_or bind].
  rewrite (ror_list_plain g fuel _ 2%nat "parse_dicts"%string);
    [|reflexivity|clear; induction lines; constructor; [reflexivity|assumption]].
  change (g "parse_dicts"%string [VList (map VStr lines)])
    with (match step_3.as_str_list (map VStr lines) with
          | Some ls => step_3.ret_map VList (step_2.parse_dicts decoder ls)
          | None => None
          end).
  rewrite as_str_list_map.
  destruct (step_2.parse_dicts decoder lines) as [vs|e] eqn:P; [|reflexivity].
  cbn [step_3.ret_map exec_bind fst snd binary_or bind].
  rewrite (ror_list_plain g fuel _ 3%nat "convert_to_contacts"%string);
    [|reflexivity|eapply parse_dicts_plain; eassumption].
  change (g "convert_to_contacts"%string [VList vs])
    with (step_3.ret_map (fun cs => VList (map VContact cs))
            (step_2.convert_to_contacts vs)).
  destruct (step_2.convert_to_contacts vs); reflexivity.
Qed.

(** C1.  For every area string, every file-system state and every JSON
    decoder, the three endpoints behave identically: [get_people] of
    [step_2.py] and of [step_3.py] return the list of contacts that
    [get_people] of [step_1.py] returns, or raise the exception that it
    raises.  The chain of [step_3.py] needs one unit of fuel, the depth
    of a call of a stage. *)
Theorem get_people_variants_agree (here : Path) (fs : filesystem)
  (decoder : str -> result json) (area : str) (fuel : nat) :
  step_2.get_people here fs decoder area
  = step_1.get_people here fs decoder area
  /\ step_3.get_people (S fuel) here fs decoder area
     = Some (contacts_value (step_1.get_people here fs decoder area)).
Proof.
  split; [symmetry; apply step_1_step_2|].
  rewrite step_1_step_2. apply step_3_step_2.
Qed.

Lemma parse_lines_ok (decoder : str -> result json) (lines : list str)
  (contacts : list Contact) :
  Forall2 (line_holds decoder) lines contacts ->
  exists recs,
    step_2.parse_dicts decoder lines = Ret (map record_value recs)
    /\ Forall2 has_contact recs contacts.
Proof.
  induction 1 as [|l c ls cs (items & Hl & Hc) _ (recs & Hp & Hr)].
  - exists []. split; [reflexivity|constructor].
  - exists (items :: recs). split; [|now constructor].
    unfold step_2.parse_dicts in *. simpl.
    unfold loads at 1. rewrite Hl. simpl. rewrite Hp. reflexivity.
Qed.

(** C2.  For every area whose data file exists and whose non-blank
    lines are N well-formed JSON objects with string fields [name] and
    [job] (blank lines may lie anywhere between them), the pipeline
    returns exactly N contacts: the contact of each line, in the order
    of the lines in the file. *)
Theorem get_people_well_formed (here : Path) (fs : filesystem)
  (decoder : str -> result json) (area : str) (buf : str)
  (contacts : list Contact) :
  fs (step_2.create_filepath here area) = Text buf ->
  Forall2 (line_holds decoder) (nonblank_segments buf) contacts ->
  step_2.get_people here fs decoder area = Ret contacts
  /\ length contacts = length (nonblank_segments buf).
Proof.
  intros Hfs Hlines. split.
  - unfold step_2.get_people. rewrite (read_lines_text _ _ _ Hfs). simpl.
    destruct (parse_lines_ok _ _ _ Hlines) as (recs & -> & Hrecs). simpl.
    now apply convert_records_ok.
  - symmetry. eapply Forall2_length. eassumption.
Qed.

Lemma get_people_well_formed_witness :
  step_2.get_people (mkPath true [lit "srv"; lit "src"])
    (fun _ => Text (lit "{'name':'Ann','job':'Cook'}\n\n{'name':'Bo','job':'Pilot'}\n"))
    json_loads (lit "east")
  = Ret [mkContact (lit "Ann") (lit "Cook"); mkContact (lit "Bo") (lit "Pilot")]
  /\ length [mkContact (lit "Ann") (lit "Cook"); mkContact (lit "Bo") (lit "Pilot")]
     = length (nonblank_segments
         (lit "{'name':'Ann','job':'Cook'}\n\n{'name':'Bo','job':'Pilot'}\n")).
Proof.
  refine (get_people_well_formed (mkPath true [lit "srv"; lit "src"])
           (fun _ => Text (lit "{'name':'Ann','job':'Cook'}\n\n{'name':'Bo','job':'Pilot'}\n"))
           json_loads (lit "east")
           (lit "{'name':'Ann','job':'Cook'}\n\n{'name':'Bo','job':'Pilot'}\n")
           [mkContact (lit "Ann") (lit "Cook"); mkContact (lit "Bo") (lit "Pilot")]
           eq_refl _).
  vm_compute nonblank_segments.
  constructor; [|constructor; [|constructor]].
  - exists [(lit "name", JStr (lit "Ann")); (lit "job", JStr (lit "Cook"))].
    split; [vm_compute; reflexivity|split; vm_compute; reflexivity].
  - exists [(lit "name", JStr (lit "Bo")); (lit "job", JStr (lit "Pilot"))].
    split; [vm_compute; reflexivity|split; vm_compute; reflexivity].
Defined.

(** ** The decoder never runs out of fuel *)

Lemma skip_ws_length (rest : str) (idx : nat) :
  (length (fst (skip_ws rest idx)) <= length rest)%nat.
Proof.
  revert idx. induction rest as [|c rest IH]; intros idx; simpl; [lia|].
  destruct (is_ws c); simpl; [|lia]. specialize (IH (S idx)). lia.
Qed.

Lemma starts_with_length (prefix s r : str) :
  starts_with prefix s = Some r -> length s = (length prefix + length r)%nat.
Proof.
  revert s. induction prefix as [|p prefix IH]; intros s; simpl.
  - intros H. now injection H as ->.
  - destruct s as [|c s]; [discriminate|].
    destruct (p =? c); [|discriminate].
    intros H. apply IH in H. simpl. lia.
Qed.

Lemma span_digits_length (s : str) :
  length s = (length (fst (span_digits s)) + length (snd (span_digits s)))%nat.
Proof.
  induction s as [|c s IH]; simpl; [reflexivity|].
  destruct (is_digit c); simpl; [|reflexivity].
  destruct (span_digits s); simpl in *. lia.
Qed.

Lemma decode_uXXXX_length (s r : str) (u : N) :
  decode_uXXXX s = Some (u, r) -> length s = (4 + length r)%nat.
Proof.
  unfold decode_uXXXX.
  destruct s as [|a [|b [|c [|d rest]]]]; try discriminate.
  destruct (hex_val a), (hex_val b), (hex_val c), (hex_val d);
    try discriminate.
  intros H. injection H as _ <-. reflexivity.
Qed.

Lemma scanstring_consumes (fuel begin : nat) (acc rest : str) (idx : nat) :
  (length rest < fuel)%nat ->
  consumes (scanstring fuel begin acc rest idx) (0 :: rest).
Proof.
  revert begin acc rest idx.
  induction fuel as [|fuel IH]; intros begin acc rest idx Hlen; [lia|].
  cbn [scanstring]. destruct rest as [|c rest]; [exact I|].
  simpl in Hlen.
  destruct (c =? 34); [simpl; lia|].
  destruct (c <? 32); [exact I|].
  destruct (c =? 92).
  - destruct rest as [|e rest]; [exact I|]. simpl in Hlen.
    destruct (e =? 117).
    + destruct (decode_uXXXX rest) as [[uni r]|] eqn:D; [|exact I].
      apply decode_uXXXX_length in D.
      assert (forall a i, consumes (scanstring fuel begin a r i)
                            (0 :: c :: e :: rest)) as Hr.
      { intros a i. specialize (IH begin a r i ltac:(lia)).
        destruct (scanstring fuel begin a r i); simpl in *; try exact I; lia. }
      destruct ((55296 <=? uni) && (uni <=? 56319)); [|apply Hr].
      destruct (starts_with [92; 117] r) as [r'|] eqn:Sw; [|apply Hr].
      apply starts_with_length in Sw.
      destruct (decode_uXXXX r') as [[uni2 r'']|] eqn:D2; [|exact I].
      apply decode_uXXXX_length in D2.
      destruct ((56320 <=? uni2) && (uni2 <=? 57343)); [|apply Hr].
      specialize (IH begin (65536 + (uni - 55296) * 1024 + (uni2 - 56320) :: acc)
                    r'' (idx + 12)%nat ltac:(simpl in *; lia)).
      destruct (scanstring fuel begin _ r'' _); simpl in *; try exact I; lia.
    + destruct (unescape e); [|exact I].
      specialize (IH begin (n :: acc) rest (idx + 2)%nat ltac:(lia)).
      destruct (scanstring fuel begin _ rest _); simpl in *; try exact I; lia.
  - specialize (IH begin (c :: acc) rest (S idx) ltac:(lia)).
    destruct (scanstring fuel begin _ rest _); simpl in *; try exact I; lia.
Qed.

Lemma match_digits_length (s ds r : str) :
  match_digits s = Some (ds, r) -> (length r < length s)%nat.
Proof.
  destruct s as [|c s]; [discriminate|]. unfold match_digits.
  destruct (c =? 48); [intros H; injection H as _ <-; simpl; lia|].
  destruct (is_digit c) eqn:Dc; [|discriminate].
  intros H. injection H as H. simpl in H. rewrite Dc in H.
  pose proof (span_digits_length s) as L.
  destruct (span_digits s) as [ds' r']. injection H as <- <-.
  simpl in *. lia.
Qed.

Lemma match_integer_length (s ds r : str) (neg : bool) :
  match_integer s = Some (neg, ds, r) -> (length r < length s)%nat.
Proof.
  unfold match_integer.
  destruct s as [|c s]; [discriminate|].
  destruct (c =? 45).
  - destruct (match_digits s) as [[ds' r']|] eqn:M; [|discriminate].
    apply match_digits_length in M.
    intros H. injection H as _ _ <-. simpl. lia.
  - destruct (match_digits (c :: s)) as [[ds' r']|] eqn:M; [|discriminate].
    apply match_digits_length in M.
    intros H. injection H as _ _ <-. exact M.
Qed.

Lemma match_frac_length (s : str) :
  (length (snd (match_frac s)) <= length s)%nat.
Proof.
  destruct s as [|c s]; [simpl; lia|]. unfold match_frac.
  destruct (c =? 46); [|simpl; lia].
  pose proof (span_digits_length s) as L.
  destruct (span_digits s) as [[|d ds] r]; simpl in *; lia.
Qed.

Lemma match_exp_length (s : str) :
  (length (snd (match_exp s)) <= length s)%nat.
Proof.
  destruct s as [|e s]; [simpl; lia|]. unfold match_exp.
  destruct ((e =? 101) || (e =? 69)); [|simpl; lia].
  destruct s as [|sg t].
  - simpl. lia.
  - destruct ((sg =? 45) || (sg =? 43)).
    + pose proof (span_digits_length t) as L.
      destruct (span_digits t) as [[|d ds] r]; simpl in *; lia.
    + pose proof (span_digits_length (sg :: t)) as L.
      destruct (span_digits (sg :: t)) as [[|d ds] r]; simpl in *; lia.
Qed.

Lemma scan_number_consumes (rest : str) (idx : nat) (res : scan json) :
  scan_number rest idx = Some res -> consumes res rest.
Proof.
  unfold scan_number.
  destruct (match_integer rest) as [[[neg ds] r]|] eqn:M; [|discriminate].
  apply match_integer_length in M.
  pose proof (match_frac_length r) as F.
  destruct (match_frac r) as [frac r1].
  pose proof (match_exp_length r1) as E.
  destruct (match_exp r1) as [ex r2]. simpl in F, E.
  destruct frac, ex; intros H; injection H as <-; simpl; lia.
Qed.

Lemma scan_constant_consumes (rest : str) (idx : nat) :
  consumes (scan_constant rest idx) rest.
Proof.
  unfold scan_constant.
  repeat match goal with
  | |- context [starts_with ?p rest] =>
      let E := fresh "E" in
      destruct (starts_with p rest) eqn:E;
      [apply starts_with_length in E; simpl in *; lia|]
  | |- context [scan_number rest idx] =>
      let E := fresh "E" in
      destruct (scan_number rest idx) eqn:E;
      [now apply scan_number_consumes in E|]
  end.
  exact I.
Qed.

Ltac skip_ws_cases r i L :=
  match goal with
  | |- context [skip_ws ?s ?k] =>
      pose proof (skip_ws_length s k) as L;
      destruct (skip_ws s k) as [r i]; simpl in L
  end.

Lemma scan_fuel (fuel : nat) :
  (forall rest idx,
      (2 * length rest + 1 <= fuel)%nat ->
      consumes (scan_once fuel rest idx) rest)
  /\ (forall acc rest idx,
        (2 * length rest + 2 <= fuel)%nat ->
        consumes (array_items fuel acc rest idx) (0 :: rest))
  /\ (forall acc rest idx,
        (2 * length rest + 2 <= fuel)%nat ->
        consumes (object_items fuel acc rest idx) (0 :: rest)).
Proof.
  induction fuel as [|fuel (IHs & IHa & IHo)].
  - repeat split; intros; lia.
  - split; [|split].
    + intros rest idx Hf. cbn [scan_once].
      destruct rest as [|c rest]; [exact I|]. simpl in Hf.
      destruct (c =? 34).
      { pose proof (scanstring_consumes (S (length rest)) idx [] rest (S idx)
                      ltac:(lia)) as Hs.
        destruct (scanstring _ _ _ _ _); simpl in *;
          first [exact I | lia | contradiction]. }
      destruct (c =? 123).
      { skip_ws_cases r i L. destruct r as [|c1 r]; [exact I|].
        destruct (c1 =? 125); [simpl in *; lia|].
        destruct (c1 =? 34); [|exact I].
        specialize (IHo [] r (S i) ltac:(simpl in *; lia)).
        destruct (object_items fuel [] r (S i)); simpl in *; try exact I; lia. }
      destruct (c =? 91).
      { skip_ws_cases r i L. destruct r as [|c1 r].
        - specialize (IHa [] [] i ltac:(simpl in *; lia)).
          destruct (array_items fuel [] [] i); simpl in *; try exact I; lia.
        - destruct (c1 =? 93); [simpl in *; lia|].
          specialize (IHa [] (c1 :: r) i ltac:(simpl in *; lia)).
          destruct (array_items fuel [] (c1 :: r) i); simpl in *;
            try exact I; lia. }
      apply scan_constant_consumes.
    + intros acc rest idx Hf. cbn [array_items].
      specialize (IHs rest idx ltac:(lia)).
      destruct (scan_once fuel rest idx) as [v r i|i|m p|]; simpl in IHs;
        try exact I; [|contradiction].
      skip_ws_cases r' i' L. destruct r' as [|c r']; [exact I|].
      destruct (c =? 93); [simpl in *; lia|].
      destruct (c =? 44); [|exact I].
      skip_ws_cases r'' i'' L'.
      specialize (IHa (v :: acc) r'' i'' ltac:(simpl in *; lia)).
      destruct (array_items fuel (v :: acc) r'' i''); simpl in *;
        try exact I; lia.
    + intros acc rest idx Hf. cbn [object_items].
      pose proof (scanstring_consumes (S (length rest)) (idx - 1) [] rest idx
                    ltac:(lia)) as Hs.
      destruct (scanstring _ _ _ _ _) as [key r i|i|m p|]; simpl in Hs;
        try exact I; [|contradiction].
      skip_ws_cases r0 i0 L0. destruct r0 as [|c1 r1]; [exact I|].
      destruct (c1 =? 58); [|exact I].
      skip_ws_cases r2 i2 L2.
      specialize (IHs r2 i2 ltac:(simpl in *; lia)).
      destruct (scan_once fuel r2 i2) as [v r3 i3|i3|m p|]; simpl in IHs;
        try exact I; [|contradiction].
      skip_ws_cases r3' i4 L3. destruct r3' as [|c4 r4]; [exact I|].
      destruct (c4 =? 125); [simpl in *; lia|].
      destruct (c4 =? 44); [|exact I].
      skip_ws_cases r4' i5 L4. destruct r4' as [|c5 r5]; [exact I|].
      destruct (c5 =? 34); [|exact I].
      specialize (IHo ((key, v) :: acc) r5 (S i5) ltac:(simpl in *; lia)).
      destruct (object_items fuel _ r5 (S i5)); simpl in *; try exact I; lia.
Qed.

(** Every exception of the decoder [json_loads] above is a
    [JSONDecodeError] that carries the document and a position in it. *)
Lemma json_loads_Raise (s : str) (e : exn) :
  json_loads s = Raise e ->
  exists msg pos, e = JSONDecodeError msg s pos.
Proof.
  unfold json_loads.
  destruct (match s with c :: _ => c =? 65279 | [] => false end);
    [intros H; injection H as <-; eauto|].
  pose proof (skip_ws_length s 0) as L0.
  destruct (skip_ws s 0) as [r0 i0]. simpl in L0.
  pose proof (proj1 (scan_fuel (2 * length s + 2)) r0 i0 ltac:(lia)) as Hc.
  destruct (scan_once _ r0 i0) as [v r i|i|m p|]; simpl in Hc.
  - destruct (skip_ws r i) as [[|c r'] i']; [discriminate|].
    intros H. injection H as <-. eauto.
  - intros H. injection H as <-. eauto.
  - intros H. injection H as <-. eauto.
  - contradiction.
Qed.

(** ** The record parser *)

Lemma loads_Ret (decoder : str -> result json) (line : str) (v : value) :
  loads decoder line = Ret v <-> exists j, decoder line = Ret j /\ v = of_json j.
Proof.
  unfold loads. destruct (decoder line) as [j|e]; simpl; split.
  - intros H. injection H as <-. eauto.
  - intros (j' & H & ->). now injection H as ->.
  - discriminate.
  - intros (j' & H & _). discriminate.
Qed.

Lemma loads_Raise (decoder : str -> result json) (line : str) (e : exn) :
  loads decoder line = Raise e <-> decoder line = Raise e.
Proof.
  unfold loads. destruct (decoder line); simpl; split; congruence.
Qed.

Lemma parse_dicts_Ret (decoder : str -> result json) (lines : list str)
  (js : list json) :
  Forall2 (fun l j => decoder l = Ret j) lines js ->
  step_2.parse_dicts decoder lines = Ret (map of_json js).
Proof.
  intros H. apply comprehension_Ret.
  induction H; simpl; constructor; [|assumption].
  apply loads_Ret. eauto.
Qed.

Lemma decoded_prefix (decoder : str -> result json) (pre : list str)
  (vs : list value) :
  Forall2 (fun l v => loads decoder l = Ret v) pre vs ->
  Forall (fun l => exists j, decoder l = Ret j) pre.
Proof.
  induction 1 as [|l v ls vs Hl _ IH]; constructor; [|exact IH].
  apply loads_Ret in Hl. destruct Hl as (j & Hj & _). eauto.
Qed.

Lemma prefix_decoded (decoder : str -> result json) (pre : list str) :
  Forall (fun l => exists j, decoder l = Ret j) pre ->
  exists vs, Forall2 (fun l v => loads decoder l = Ret v) pre vs.
Proof.
  induction 1 as [|l ls [j Hj] _ [vs IH]].
  - exists []. constructor.
  - exists (of_json j :: vs). constructor; [|exact IH].
    apply loads_Ret. eauto.
Qed.

(** C4 as stated fails: a batch with lines that decode to an array and
    to a number is parsed without any error, and those values are part
    of the result. *)
Lemma parse_dicts_accepts_non_objects :
  step_2.parse_dicts json_loads
    [lit "{'name':'Ann','job':'Cook'}"; lit "[1, 2]"; lit "3"]
  = Ret [VDict [(VStr (lit "name"), VStr (lit "Ann"));
                (VStr (lit "job"), VStr (lit "Cook"))];
         VList [VInt 1; VInt 2];
         VInt 3].
Proof. vm_compute. reflexivity. Qed.

(** C4, amended.  For every sequence of lines and every decoder, the
    record parser (of [step_2.py] and of [step_3.py]) fails exactly
    when the decoder raises on one of the lines: the exception raised
    for the first such line, wherever it stands, is the exception of the
    whole batch, unchanged, and no partial result is returned; for a
    decoder whose [JSONDecodeError] carries the document it was given,
    the document carried is that line.  When the decoder accepts every
    line, the batch is the list of the decoded values in order, whether
    they are objects or not. *)
Theorem parse_dicts_first_refused (decoder : str -> result json)
  (lines : list str) :
  (forall pre line post e,
      lines = pre ++ line :: post ->
      Forall (fun l => exists j, decoder l = Ret j) pre ->
      decoder line = Raise e ->
      step_2.parse_dicts decoder lines = Raise e
      /\ step_3.parse_dicts decoder lines = Raise e)
  /\ (forall e,
        step_2.parse_dicts decoder lines = Raise e ->
        exists pre line post,
          lines = pre ++ line :: post
          /\ Forall (fun l => exists j, decoder l = Ret j) pre
          /\ decoder line = Raise e)
  /\ ((forall s msg doc pos,
          decoder s = Raise (JSONDecodeError msg doc pos) -> doc = s) ->
      forall msg doc pos,
        step_2.parse_dicts decoder lines = Raise (JSONDecodeError msg doc pos) ->
        exists pre post,
          lines = pre ++ doc :: post
          /\ Forall (fun l => exists j, decoder l = Ret j) pre
          /\ decoder doc = Raise (JSONDecodeError msg doc pos))
  /\ (forall js,
        Forall2 (fun l j => decoder l = Ret j) lines js ->
        step_2.parse_dicts decoder lines = Ret (map of_json js))
  /\ (forall vs,
        step_2.parse_dicts decoder lines = Ret vs ->
        exists js,
          Forall2 (fun l j => decoder l = Ret j) lines js
          /\ vs = map of_json js).
Proof.
  assert (forall e,
             step_2.parse_dicts decoder lines = Raise e ->
             exists pre line post,
               lines = pre ++ line :: post
               /\ Forall (fun l => exists j, decoder l = Ret j) pre
               /\ decoder line = Raise e) as Hfirst.
  { intros e H. apply comprehension_Raise in H.
    destruct H as (pre & line & post & vs & -> & Hpre & Hline).
    exists pre, line, post. split; [reflexivity|].
    split; [eapply decoded_prefix; eassumption|now apply loads_Raise]. }
  split; [|split; [|split; [|split]]].
  - intros pre line post e -> Hpre Hline.
    assert (step_2.parse_dicts decoder (pre ++ line :: post) = Raise e) as H.
    { apply comprehension_Raise.
      destruct (prefix_decoded _ _ Hpre) as [vs Hvs].
      exists pre, line, post, vs. split; [reflexivity|].
      split; [assumption|now apply loads_Raise]. }
    split; exact H.
  - apply Hfirst.
  - intros Hdoc msg doc pos H.
    destruct (Hfirst _ H) as (pre & line & post & -> & Hpre & Hline).
    pose proof (Hdoc _ _ _ _ Hline) as ->.
    exists pre, post. auto.
  - apply parse_dicts_Ret.
  - intros vs H. apply comprehension_Ret in H.
    clear Hfirst. revert vs H. induction lines as [|l ls IH]; intros vs H.
    + inversion H. exists []. split; [constructor|reflexivity].
    + inversion H as [|? v ? vs' Hl Hls]; subst.
      apply loads_Ret in Hl. destruct Hl as (j & Hj & ->).
      destruct (IH _ Hls) as (js & Hjs & ->).
      exists (j :: js). split; [now constructor|reflexivity].
Qed.

Lemma parse_dicts_first_refused_witness :
  step_2.parse_dicts json_loads
    [lit "{'name':'Ann','job':'Cook'}"; lit "{'name': }"; lit "[1"]
  = Raise (JSONDecodeError "Expecting value" (lit "{'name': }") 9)
  /\ step_3.parse_dicts json_loads
       [lit "{'name':'Ann','job':'Cook'}"; lit "{'name': }"; lit "[1"]
     = Raise (JSONDecodeError "Expecting value" (lit "{'name': }") 9).
Proof.
  apply (proj1 (parse_dicts_first_refused json_loads _)
           [lit "{'name':'Ann','job':'Cook'}"] (lit "{'name': }") [lit "[1"]
           (JSONDecodeError "Expecting value" (lit "{'name': }") 9) eq_refl).
  - constructor; [|constructor].
    exists (JObject [(lit "name", JStr (lit "Ann")); (lit "job", JStr (lit "Cook"))]).
    vm_compute. reflexivity.
  - vm_compute. reflexivity.
Defined.

(** ** Calls: fuel and the store *)

Section CallFacts.

Variable globals : string -> list value -> exec value.

Lemma call_mono (n m : nat) (st : store) (f : value) (args : list value)
  (r : result value) :
  call globals n st f args = Some r -> (n <= m)%nat ->
  call globals m st f args = Some r.
Proof.
  revert m f args r.
  induction n as [|n IH]; intros m f args r H Hle; [discriminate|].
  destruct m as [|m]; [lia|]. assert (n <= m)%nat as Hnm by lia.
  destruct f; simpl in *; try exact H.
  - destruct (getattr_func st l) as [[func|e]|]; simpl in *;
      [eauto|exact H|discriminate].
  - destruct args as [|v [|? ?]]; try exact H.
    destruct (getattr_func st self) as [[func|e]|]; simpl in *;
      [|exact H|discriminate].
    destruct (call globals n st func [v]) as [[y|e]|] eqn:C; simpl in *;
      [|injection H as <-|discriminate].
    + rewrite (IH m func [v] (Ret y) C Hnm). simpl. eauto.
    + rewrite (IH m func [v] (Raise e) C Hnm). reflexivity.
  - destruct args as [|v [|? ?]]; try exact H.
    destruct (getattr_func st self) as [[func|e]|]; simpl in *;
      [eauto|exact H|discriminate].
Qed.

Lemma runs_deterministic (st : store) (f : value) (args : list value)
  (r r' : result value) :
  runs globals st f args r -> runs globals st f args r' -> r = r'.
Proof.
  intros [n Hn] [m Hm].
  apply (call_mono n (n + m)) in Hn; [|lia].
  apply (call_mono m (n + m)) in Hm; [|lia].
  congruence.
Qed.


Lemma runs_composable (st : store) (self : loc) (args : list value)
  (r : result value) :
  runs globals st (VComposable self) args r <->
  exists func, st !! self = Some func /\ runs globals st func args r.
Proof.
  split.
  - intros [[|n] H]; [discriminate|]. simpl in H. unfold getattr_func in H.
    destruct (st !! self) as [func|]; [|discriminate].
    exists func. split; [reflexivity|]. now exists n.
  - intros (func & Hf & [n H]). exists (S n). simpl. unfold getattr_func.
    now rewrite Hf.
Qed.

Lemma runs_then (st : store) (self : loc) (other v : value)
  (r : result value) :
  runs globals st (VLamThen self other) [v] r <->
  exists func,
    st !! self = Some func
    /\ ((exists y, runs globals st func [v] (Ret y) /\ runs globals st other [y] r)
        \/ (exists e, r = Raise e /\ runs globals st func [v] (Raise e))).
Proof.
  split.
  - intros [[|n] H]; [discriminate|]. simpl in H. unfold getattr_func in H.
    destruct (st !! self) as [func|]; [|discriminate].
    exists func. split; [reflexivity|]. simpl in H.
    destruct (call globals n st func [v]) as [[y|e]|] eqn:C; simpl in H;
      [|injection H as <-|discriminate].
    + left. exists y. split; now exists n.
    + right. exists e. split; [reflexivity|now exists n].
  - intros (func & Hf & [(y & [n Hn] & [m Hm])|(e & -> & [n Hn])]).
    + exists (S (n + m)). simpl. unfold getattr_func. rewrite Hf. simpl.
      rewrite (call_mono n (n + m) _ _ _ _ Hn) by lia. simpl.
      apply (call_mono m); [assumption|lia].
    + exists (S n). simpl. unfold getattr_func. rewrite Hf. simpl.
      now rewrite Hn.
Qed.

Lemma runs_const (st : store) (self : loc) (other x : value)
  (r : result value) :
  runs globals st (VLamConst self other) [x] r <->
  exists func, st !! self = Some func /\ runs globals st func [other] r.
Proof.
  split.
  - intros [[|n] H]; [discriminate|]. simpl in H. unfold getattr_func in H.
    destruct (st !! self) as [func|]; [|discriminate].
    exists func. split; [reflexivity|]. now exists n.
  - intros (func & Hf & [n H]). exists (S n). simpl. unfold getattr_func.
    now rewrite Hf.
Qed.

Lemma forallb_lookup (P : value -> bool) (st : store) (l : loc) (v : value) :
  forallb P st = true -> st !! l = Some v -> P v = true.
Proof.
  revert l. induction st as [|x st IH]; intros l H Hl; [discriminate|].
  simpl in H. apply andb_true_iff in H. destruct H as [Hx Hst].
  destruct l as [|l]; simpl in Hl; [now injection Hl as <-|eauto].
Qed.

Lemma closed_below_le (n m : nat) (v : value) :
  closed_below n v = true -> (n <= m)%nat -> closed_below m v = true.
Proof.
  intros H Hle. induction v; simpl in *; try reflexivity.
  - apply Nat.ltb_lt in H. apply Nat.ltb_lt. lia.
  - apply andb_true_iff in H. destruct H as [H1 H2].
    apply andb_true_iff. split; [|now apply IHv].
    apply Nat.ltb_lt in H1. apply Nat.ltb_lt. lia.
  - apply Nat.ltb_lt in H. apply Nat.ltb_lt. lia.
Qed.

(** Objects created later do not change a call that cannot reach them. *)
Lemma call_ext (n : nat) (st ext : store) (f : value) (args : list value) :
  store_closed st = true -> closed_below (length st) f = true ->
  call globals n (st ++ ext) f args = call globals n st f args.
Proof.
  intros Hst. revert f args.
  induction n as [|n IH]; intros f args Hf; [reflexivity|].
  assert (forall l, Nat.ltb l (length st) = true ->
            getattr_func (st ++ ext) l = getattr_func st l) as Hget.
  { intros l Hl. apply Nat.ltb_lt in Hl. unfold getattr_func.
    now rewrite lookup_app_l. }
  assert (forall l func, st !! l = Some func ->
            closed_below (length st) func = true) as Hin.
  { intros l func Hl. eapply forallb_lookup; eassumption. }
  destruct f; simpl in *; try reflexivity.
  - rewrite Hget by assumption. unfold getattr_func.
    destruct (st !! l) as [func|] eqn:E; simpl; [eauto|reflexivity].
  - apply andb_true_iff in Hf. destruct Hf as [Hself Hother].
    destruct args as [|v [|? ?]]; try reflexivity.
    rewrite Hget by assumption. unfold getattr_func.
    destruct (st !! self) as [func|] eqn:E; simpl; [|reflexivity].
    rewrite (IH func [v]) by eauto.
    destruct (call globals n st func [v]) as [[y|e]|]; simpl;
      [eauto|reflexivity|reflexivity].
  - destruct args as [|v [|? ?]]; try reflexivity.
    rewrite Hget by assumption. unfold getattr_func.
    destruct (st !! self) as [func|] eqn:E; simpl; [eauto|reflexivity].
Qed.

Lemma runs_ext (st ext : store) (f : value) (args : list value)
  (r : result value) :
  store_closed st = true -> closed_below (length st) f = true ->
  runs globals (st ++ ext) f args r <-> runs globals st f args r.
Proof.
  intros Hst Hf. unfold runs.
  split; intros [n H]; exists n.
  - now rewrite <- (call_ext n st ext) by assumption.
  - now rewrite (call_ext n st ext) by assumption.
Qed.


(** A call that returns or raises still does so, in the same way, after
    objects are created. *)
Lemma call_grow (n : nat) (st ext : store) (f : value) (args : list value)
  (r : result value) :
  call globals n st f args = Some r ->
  call globals n (st ++ ext) f args = Some r.
Proof.
  revert f args r. induction n as [|n IH]; intros f args r H; [discriminate|].
  assert (forall l func, st !! l = Some func ->
            getattr_func (st ++ ext) l = Some (Ret func)) as Hget.
  { intros l func Hl. unfold getattr_func.
    rewrite lookup_app_l; [now rewrite Hl|].
    eapply lookup_lt_Some. eassumption. }
  destruct f; simpl in *; try exact H.
  - unfold getattr_func in H.
    destruct (st !! l) as [func|] eqn:E; [|discriminate].
    rewrite (Hget _ _ E). simpl in *. eauto.
  - destruct args as [|v [|? ?]]; try exact H.
    unfold getattr_func in H.
    destruct (st !! self) as [func|] eqn:E; [|discriminate].
    rewrite (Hget _ _ E). simpl in *.
    destruct (call globals n st func [v]) as [[y|e]|] eqn:C; simpl in H;
      [|injection H as <-|discriminate].
    + rewrite (IH _ _ _ C). simpl. eauto.
    + rewrite (IH _ _ _ C). reflexivity.
  - destruct args as [|v [|? ?]]; try exact H.
    unfold getattr_func in H.
    destruct (st !! self) as [func|] eqn:E; [|discriminate].
    rewrite (Hget _ _ E). simpl in *. eauto.
Qed.

Lemma runs_grow (st ext : store) (f : value) (args : list value)
  (r : result value) :
  runs globals st f args r -> runs globals (st ++ ext) f args r.
Proof. intros [n H]. exists n. now apply call_grow. Qed.

End CallFacts.

(** ** Chaining *)

Lemma or_new_object (st : store) (self : loc) (other : value) :
  exists lam,
    composable.__or__ st self other = (VComposable (length st), st ++ [lam])
    /\ lam = (if callable other then VLamThen self other
              else VLamConst self other).
Proof.
  unfold composable.__or__, composable.__init__.
  destruct (callable other); eexists; split; reflexivity.
Qed.

Lemma lookup_new (st : store) (v : value) :
  st !! length st = None /\ (st ++ [v]) !! length st = Some v.
Proof.
  split; [apply lookup_ge_None; lia|].
  rewrite lookup_app_r by lia. now rewrite Nat.sub_diag.
Qed.

Lemma lookup_kept (st ext : store) (l : loc) (func : value) :
  st !! l = Some func -> (st ++ ext) !! l = Some func.
Proof.
  intros H. rewrite lookup_app_l; [exact H|].
  eapply lookup_lt_Some. eassumption.
Qed.

Lemma then_runs (globals : string -> list value -> exec value) (st : store)
  (self : loc) (f g x : value) (r : result value) :
  st !! self = Some f ->
  runs globals (st ++ [VLamThen self g]) (VComposable (length st)) [x] r <->
  (exists y, runs globals (st ++ [VLamThen self g]) f [x] (Ret y)
             /\ runs globals (st ++ [VLamThen self g]) g [y] r)
  \/ (exists e, r = Raise e
                /\ runs globals (st ++ [VLamThen self g]) f [x] (Raise e)).
Proof.
  intros Hself.
  destruct (lookup_new st (VLamThen self g)) as [_ Hnew].
  rewrite runs_composable. split.
  - intros (func & Hfunc & Hrun). rewrite Hnew in Hfunc.
    injection Hfunc as <-. apply runs_then in Hrun.
    destruct Hrun as (func & Hfunc & Hrun).
    rewrite (lookup_kept _ _ _ _ Hself) in Hfunc. now injection Hfunc as <-.
  - intros Hrun. exists (VLamThen self g). split; [exact Hnew|].
    apply runs_then. exists f. split; [now apply lookup_kept|exact Hrun].
Qed.

(** C7.  For every store, every instance [self] of [composable] that
    wraps a function [f] and every callable [g], the expression
    [self | g] is [composable.__or__]: it creates a new instance at a
    location that was free and changes no existing object, [self]
    included.  Calling the new pipeline on [x] returns or raises what
    [g(f(x))] does: the result of [g] on the value that [f] returns, or
    the exception that [f] raises.  Every call of [self] that returned
    or raised before does the same afterwards. *)
Theorem or_callable_composes (globals : string -> list value -> exec value)
  (fuel : nat) (st : store) (self : loc) (f g : value) :
  st !! self = Some f ->
  callable g = true ->
  exists (l : loc) (st' : store),
    binary_or globals fuel st (VComposable self) g
    = Some (Ret (VComposable l, st'))
    /\ composable.__or__ st self g = (VComposable l, st')
    /\ st !! l = None
    /\ st' !! l = Some (VLamThen self g)
    /\ (forall l' func, st !! l' = Some func -> st' !! l' = Some func)
    /\ (forall x r,
          runs globals st' (VComposable l) [x] r <->
          (exists y, runs globals st' f [x] (Ret y)
                     /\ runs globals st' g [y] r)
          \/ (exists e, r = Raise e /\ runs globals st' f [x] (Raise e)))
    /\ (forall args r,
          runs globals st (VComposable self) args r ->
          runs globals st' (VComposable self) args r).
Proof.
  intros Hself Hg.
  destruct (or_new_object st self g) as (lam & Hor & Hlam).
  rewrite Hg in Hlam. subst lam.
  destruct (lookup_new st (VLamThen self g)) as [Hfree Hnew].
  exists (length st), (st ++ [VLamThen self g]).
  split; [simpl; now rewrite Hor|].
  split; [exact Hor|].
  split; [exact Hfree|].
  split; [exact Hnew|].
  split; [intros l' func; apply lookup_kept|].
  split; [|intros args r; apply runs_grow].
  intros x r. now apply then_runs.
Qed.

(** ** Forcing the elements of a container *)

Section Forcing.

Variable globals : string -> list value -> exec value.

Lemma force_mono (n m : nat) (st : store) (i : value) (r : result value) :
  force globals n st i = Some r -> (n <= m)%nat ->
  force globals m st i = Some r.
Proof.
  unfold force. destruct (callable i); [apply call_mono|auto].
Qed.

Lemma force_list_mono (n m : nat) (st : store) (xs : list value)
  (r : result (list value)) :
  force_list globals n st xs = Some r -> (n <= m)%nat ->
  force_list globals m st xs = Some r.
Proof.
  intros H Hle. revert r H.
  induction xs as [|i xs IH]; intros r H; [exact H|]. simpl in *.
  destruct (force globals n st i) as [[y|e]|] eqn:F; simpl in H;
    [|injection H as <-|discriminate].
  - rewrite (force_mono _ _ _ _ _ F Hle). simpl.
    destruct (force_list globals n st xs) as [[ys|e]|]; simpl in H;
      [|injection H as <-|discriminate].
    + now rewrite (IH _ eq_refl).
    + now rewrite (IH _ eq_refl).
  - now rewrite (force_mono _ _ _ _ _ F Hle).
Qed.

Lemma force_Ret (st : store) (i y : value) :
  (exists n, force globals n st i = Some (Ret y)) <-> forced globals st i y.
Proof.
  unfold force, forced, runs. destruct (callable i); [tauto|].
  split; [intros [_ H]; congruence|intros ->; now exists 0%nat].
Qed.

Lemma force_Raise (st : store) (i : value) (e : exn) :
  (exists n, force globals n st i = Some (Raise e)) <->
  callable i = true /\ runs globals st i [] (Raise e).
Proof.
  unfold force, runs. destruct (callable i); [tauto|].
  split; [intros [_ H]; discriminate|intros [H _]; discriminate].
Qed.

Lemma force_list_Ret (st : store) (xs ys : list value) :
  (exists n, force_list globals n st xs = Some (Ret ys)) <->
  Forall2 (forced globals st) xs ys.
Proof.
  revert ys. induction xs as [|i xs IH]; intros ys.
  - split.
    + intros [n H]. injection H as <-. constructor.
    + intros H. inversion H. now exists 0%nat.
  - split.
    + intros [n H]. simpl in H.
      destruct (force globals n st i) as [[y|e]|] eqn:F; simpl in H;
        try discriminate.
      destruct (force_list globals n st xs) as [[zs|e]|] eqn:L; simpl in H;
        try discriminate.
      injection H as <-. constructor.
      * apply force_Ret. eauto.
      * apply IH. eauto.
    + intros H. inversion H as [|? y ? zs Hy Hzs]; subst.
      apply force_Ret in Hy. destruct Hy as [n Hn].
      apply IH in Hzs. destruct Hzs as [m Hm].
      exists (n + m)%nat. simpl.
      rewrite (force_mono n (n + m) _ _ _ Hn) by lia. simpl.
      rewrite (force_list_mono m (n + m) _ _ _ Hm) by lia. reflexivity.
Qed.

Lemma force_list_Raise (st : store) (xs : list value) (e : exn) :
  (exists n, force_list globals n st xs = Some (Raise e)) <->
  forcing_raises globals st xs e.
Proof.
  unfold forcing_raises. induction xs as [|i xs IH].
  - split; [intros [n H]; discriminate|].
    intros (pre & x & post & ys & H & _). now destruct pre.
  - split.
    + intros [n H]. simpl in H.
      destruct (force globals n st i) as [[y|e']|] eqn:F; simpl in H;
        try discriminate.
      * destruct (force_list globals n st xs) as [[zs|e']|] eqn:L;
          simpl in H; try discriminate.
        injection H as ->.
        destruct (proj1 IH (ex_intro _ n L))
          as (pre & x & post & ys & -> & Hpre & Hx).
        exists (i :: pre), x, post, (y :: ys).
        split; [reflexivity|]. split; [|exact Hx].
        constructor; [|exact Hpre]. apply force_Ret. eauto.
      * injection H as ->. exists [], i, xs, [].
        split; [reflexivity|]. split; [constructor|].
        apply force_Raise. eauto.
    + intros (pre & x & post & ys & H & Hpre & Hx).
      destruct pre as [|p pre]; simpl in H; injection H as -> ->.
      * apply force_Raise in Hx. destruct Hx as [n Hn].
        exists n. simpl. now rewrite Hn.
      * inversion Hpre as [|? y ? zs Hy Hzs]; subst.
        apply force_Ret in Hy. destruct Hy as [n Hn].
        destruct (proj2 IH) as [m Hm]; [eauto 10|].
        exists (n + m)%nat. simpl.
        rewrite (force_mono n (n + m) _ _ _ Hn) by lia. simpl.
        rewrite (force_list_mono m (n + m) _ _ _ Hm) by lia. reflexivity.
Qed.

(** Forcing the values of a [dict] is forcing the list of its values;
    the keys are kept as they are. *)
Lemma force_items_values (n : nat) (st : store) (items : list (value * value)) :
  force_items globals n st items
  = let? ys := force_list globals n st (map snd items) in
    Some (Ret (combine (map fst items) ys)).
Proof.
  induction items as [|[k v] items IH]; [reflexivity|]. simpl.
  destruct (force globals n st v) as [[y|e]|]; simpl; try reflexivity.
  rewrite IH.
  destruct (force_list globals n st (map snd items)) as [[ys|e]|];
    reflexivity.
Qed.


Lemma ror_scalar_runs (st : store) (self : loc) (other : value)
  (r : result value) :
  match other with
  | VList _ | VTuple _ | VDict _ => False
  | _ => True
  end ->
  ror_runs globals st self other r <->
  exists func, st !! self = Some func /\ runs globals st func [other] r.
Proof.
  intros Hother. unfold ror_runs, runs, composable.__ror__, getattr_func.
  destruct other; try contradiction; simpl;
    (destruct (st !! self) as [func|]; simpl;
     [split; [intros [n H]; eauto|intros (f' & Hf & H); now injection Hf as <-]
     |split; [intros [n H]; discriminate|intros (f' & Hf & _); discriminate]]).
Qed.

Lemma ror_forced_list (st : store) (self : loc) (other : value)
  (xs : list value) (r : result value) :
  other = VList xs \/ other = VTuple xs ->
  ror_runs globals st self other r <->
  (exists ys func,
      Forall2 (forced globals st) xs ys
      /\ st !! self = Some func
      /\ runs globals st func [VList ys] r)
  \/ (exists e, r = Raise e /\ forcing_raises globals st xs e).
Proof.
  intros Hother.
  assert (forall n,
            composable.__ror__ globals n st self other
            = let? ys := force_list globals n st xs in
              let? func := getattr_func st self in
              call globals n st func [VList ys]) as Hror.
  { intros n. unfold composable.__ror__.
    destruct Hother as [-> | ->];
      destruct (force_list globals n st xs) as [[ys|e]|]; reflexivity. }
  unfold ror_runs. split.
  - intros [n H]. rewrite Hror in H.
    destruct (force_list globals n st xs) as [[ys|e]|] eqn:F; simpl in H;
      [|injection H as <-|discriminate].
    + left. unfold getattr_func in H.
      destruct (st !! self) as [func|]; [|discriminate]. simpl in H.
      exists ys, func. split; [apply force_list_Ret; eauto|].
      split; [reflexivity|now exists n].
    + right. exists e. split; [reflexivity|]. apply force_list_Raise. eauto.
  - intros [(ys & func & Hys & Hself & [m Hm])|(e & -> & He)].
    + apply force_list_Ret in Hys. destruct Hys as [n Hn].
      exists (n + m)%nat. rewrite Hror.
      rewrite (force_list_mono n (n + m) _ _ _ Hn) by lia. simpl.
      unfold getattr_func. rewrite Hself. simpl.
      apply (call_mono globals m); [assumption|lia].
    + apply force_list_Raise in He. destruct He as [n Hn].
      exists n. rewrite Hror. now rewrite Hn.
Qed.

Lemma ror_forced_dict (st : store) (self : loc)
  (items : list (value * value)) (r : result value) :
  ror_runs globals st self (VDict items) r <->
  (exists ys func,
      Forall2 (forced globals st) (map snd items) ys
      /\ st !! self = Some func
      /\ runs globals st func [VDict (combine (map fst items) ys)] r)
  \/ (exists e, r = Raise e
                /\ forcing_raises globals st (map snd items) e).
Proof.
  assert (forall n,
            composable.__ror__ globals n st self (VDict items)
            = let? ys := force_list globals n st (map snd items) in
              let? func := getattr_func st self in
              call globals n st func [VDict (combine (map fst items) ys)])
    as Hror.
  { intros n. unfold composable.__ror__. simpl.
    rewrite force_items_values.
    destruct (force_list globals n st (map snd items)) as [[ys|e]|];
      reflexivity. }
  unfold ror_runs. split.
  - intros [n H]. rewrite Hror in H.
    destruct (force_list globals n st (map snd items)) as [[ys|e]|] eqn:F;
      simpl in H; [|injection H as <-|discriminate].
    + left. unfold getattr_func in H.
      destruct (st !! self) as [func|]; [|discriminate]. simpl in H.
      exists ys, func. split; [apply force_list_Ret; eauto|].
      split; [reflexivity|now exists n].
    + right. exists e. split; [reflexivity|]. apply force_list_Raise. eauto.
  - intros [(ys & func & Hys & Hself & [m Hm])|(e & -> & He)].
    + apply force_list_Ret in Hys. destruct Hys as [n Hn].
      exists (n + m)%nat. rewrite Hror.
      rewrite (force_list_mono n (n + m) _ _ _ Hn) by lia. simpl.
      unfold getattr_func. rewrite Hself. simpl.
      apply (call_mono globals m); [assumption|lia].
    + apply force_list_Raise in He. destruct He as [n Hn].
      exists n. rewrite Hror. now rewrite Hn.
Qed.

Lemma combine_keys (ks ys : list value) :
  length ys = length ks ->
  map fst (combine ks ys) = ks /\ map snd (combine ks ys) = ys.
Proof.
  revert ys. induction ks as [|k ks IH]; intros [|y ys] H;
    try discriminate; [split; reflexivity|].
  simpl in *. destruct (IH ys) as [H1 H2]; [lia|]. now rewrite H1, H2.
Qed.

End Forcing.

Lemma forced_items_combine (globals : string -> list value -> exec value)
  (st : store) (items : list (value * value)) (ys : list value) :
  Forall2 (forced globals st) (map snd items) ys ->
  Forall2 (forced_item globals st) items (combine (map fst items) ys).
Proof.
  revert ys. induction items as [|[k v] items IH]; intros ys H;
    inversion H; subst; simpl; constructor.
  - split; [reflexivity|assumption].
  - now apply IH.
Qed.

Lemma forced_items_split (globals : string -> list value -> exec value)
  (st : store) (items items' : list (value * value)) :
  Forall2 (forced_item globals st) items items' ->
  Forall2 (forced globals st) (map snd items) (map snd items')
  /\ map fst items' = map fst items
  /\ combine (map fst items) (map snd items') = items'.
Proof.
  induction 1 as [|[k v] [k' v'] items items' [Hk Hv] _ (IH1 & IH2 & IH3)].
  - repeat split. constructor.
  - simpl in *. subst k'. rewrite IH2, IH3.
    repeat split. now constructor.
Qed.

(** C9 as stated fails: a [set] is a non-scalar container, and a
    function of no argument that it contains is not called; the set
    reaches the first stage as it is.  In a [list] the same element is
    called and replaced. *)
Lemma ror_set_not_forced :
  callable (VFunc "five") = true
  /\ call example_globals 1 [VFunc "identity"] (VFunc "five") []
     = Some (Ret (VInt 5))
  /\ composable.__ror__ example_globals 1 [VFunc "identity"] 0
       (VSet [VFunc "five"])
     = Some (Ret (VSet [VFunc "five"]))
  /\ composable.__ror__ example_globals 1 [VFunc "identity"] 0
       (VList [VFunc "five"])
     = Some (Ret (VList [VInt 5])).
Proof. repeat split; vm_compute; reflexivity. Qed.

(** C9, amended.  When a value is piped into an instance [self]: if it
    is a [list] or a [tuple], each element that is callable is called
    with no argument and replaced by its result, from left to right, and
    the first stage receives the [list] of the results, or the piping
    raises what the first failing element raises; if it is a [dict],
    the same is done to its values, its keys being kept; any other
    value, a [set] included, is passed to the first stage unchanged. *)
Theorem ror_forces_list_tuple_dict
  (globals : string -> list value -> exec value) (st : store) (self : loc)
  (other : value) (r : result value) :
  (forall xs,
      other = VList xs \/ other = VTuple xs ->
      ror_runs globals st self other r <->
      (exists ys func,
          Forall2 (forced globals st) xs ys
          /\ st !! self = Some func
          /\ runs globals st func [VList ys] r)
      \/ (exists e, r = Raise e /\ forcing_raises globals st xs e))
  /\ (forall items,
        other = VDict items ->
        ror_runs globals st self other r <->
        (exists items' func,
            Forall2 (forced_item globals st) items items'
            /\ st !! self = Some func
            /\ runs globals st func [VDict items'] r)
        \/ (exists e, r = Raise e
                      /\ forcing_raises globals st (map snd items) e))
  /\ (match other with
      | VList _ | VTuple _ | VDict _ => False
      | _ => True
      end ->
      ror_runs globals st self other r <->
      exists func, st !! self = Some func /\ runs globals st func [other] r).
Proof.
  split; [|split].
  - intros xs Hother. now apply ror_forced_list.
  - intros items ->. rewrite ror_forced_dict. split.
    + intros [(ys & func & Hys & Hself & Hrun)|H]; [left|now right].
      exists (combine (map fst items) ys), func.
      split; [now apply forced_items_combine|now split].
    + intros [(items' & func & Hit & Hself & Hrun)|H]; [left|now right].
      apply forced_items_split in Hit. destruct Hit as (Hys & _ & Hc).
      exists (map snd items'), func. rewrite Hc. now repeat split.
  - apply ror_scalar_runs.
Qed.

Lemma ror_forces_list_tuple_dict_witness :
  ror_runs example_globals [VFunc "identity"] 0
    (VTuple [VFunc "five"; VInt 1]) (Ret (VList [VInt 5; VInt 1])).
Proof.
  apply (proj1 (ror_forces_list_tuple_dict example_globals
                  [VFunc "identity"] 0 (VTuple [VFunc "five"; VInt 1])
                  (Ret (VList [VInt 5; VInt 1])))
           [VFunc "five"; VInt 1] (or_intror eq_refl)).
  left. exists [VInt 5; VInt 1], (VFunc "identity").
  split; [|split; [reflexivity|exists 1%nat; reflexivity]].
  constructor; [exists 1%nat; reflexivity|].
  constructor; [reflexivity|constructor].
Defined.

Lemma or_callable_composes_witness :
  exists (l : loc) (st' : store),
    binary_or example_globals 0 [VFunc "double"] (VComposable 0) (VFunc "succ")
    = Some (Ret (VComposable l, st'))
    /\ [VFunc "double"] !! l = None
    /\ st' !! 0%nat = Some (VFunc "double")
    /\ runs example_globals st' (VComposable l) [VInt 3] (Ret (VInt 7)).
Proof.
  destruct (or_callable_composes example_globals 0 [VFunc "double"] 0
              (VFunc "double") (VFunc "succ") eq_refl eq_refl)
    as (l & st' & Hor & _ & Hfree & _ & Hkept & Hrun & _).
  exists l, st'. split; [exact Hor|]. split; [exact Hfree|].
  split; [now apply Hkept|].
  apply Hrun. left. exists (VInt 6).
  split; exists 1%nat; reflexivity.
Defined.

(** C10.  When the right operand [c] of the chaining operator is not
    callable, [self | c] is a new instance whose function is the
    closure [lambda x: self.func(c)]: called on any [x], it returns or
    raises what [f(c)] does, where [f] is the function that [self]
    wraps, whatever [x] is.  When a [dict] is piped into an instance,
    the first stage receives a [dict] with the same keys in the same
    order, callable or not, and with the forced values. *)
Theorem or_constant_and_dict_values
  (globals : string -> list value -> exec value) (fuel : nat) (st : store)
  (self : loc) (f c : value) :
  st !! self = Some f ->
  callable c = false ->
  (exists (l : loc) (st' : store),
      binary_or globals fuel st (VComposable self) c
      = Some (Ret (VComposable l, st'))
      /\ composable.__or__ st self c = (VComposable l, st')
      /\ st' !! l = Some (VLamConst self c)
      /\ (forall x r,
            runs globals st' (VComposable l) [x] r
            <-> runs globals st' f [c] r)
      /\ (forall x y r,
            runs globals st' (VComposable l) [x] r
            <-> runs globals st' (VComposable l) [y] r))
  /\ (forall stage items r,
        ror_runs globals st stage (VDict items) r <->
        (exists items' func,
            map fst items' = map fst items
            /\ Forall2 (forced globals st) (map snd items) (map snd items')
            /\ st !! stage = Some func
            /\ runs globals st func [VDict items'] r)
        \/ (exists e, r = Raise e
                      /\ forcing_raises globals st (map snd items) e)).
Proof.
  intros Hself Hc. split.
  - destruct (or_new_object st self c) as (lam & Hor & Hlam).
    rewrite Hc in Hlam. subst lam.
    destruct (lookup_new st (VLamConst self c)) as [Hfree Hnew].
    exists (length st), (st ++ [VLamConst self c]).
    split; [simpl; now rewrite Hor|].
    split; [exact Hor|]. split; [exact Hnew|].
    assert (forall x r,
              runs globals (st ++ [VLamConst self c])
                (VComposable (length st)) [x] r
              <-> runs globals (st ++ [VLamConst self c]) f [c] r) as Hconst.
    { intros x r. rewrite runs_composable. split.
      - intros (func & Hfunc & Hrun). rewrite Hnew in Hfunc.
        injection Hfunc as <-. apply runs_const in Hrun.
        destruct Hrun as (func & Hfunc & Hrun).
        rewrite (lookup_kept _ _ _ _ Hself) in Hfunc.
        now injection Hfunc as <-.
      - intros Hrun. exists (VLamConst self c). split; [exact Hnew|].
        apply runs_const. exists f. split; [now apply lookup_kept|exact Hrun]. }
    split; [exact Hconst|].
    intros x y r. now rewrite !Hconst.
  - intros stage items r. rewrite ror_forced_dict. split.
    + intros [(ys & func & Hys & Hstage & Hrun)|H]; [left|now right].
      destruct (combine_keys (map fst items) ys) as [Hk Hv].
      { apply Forall2_length in Hys. rewrite length_map in *. lia. }
      exists (combine (map fst items) ys), func.
      rewrite Hk, Hv. now repeat split.
    + intros [(items' & func & Hk & Hys & Hstage & Hrun)|H];
        [left|now right].
      exists (map snd items'), func. rewrite <- Hk.
      replace (combine (map fst items') (map snd items')) with items';
        [now repeat split|].
      clear. induction items' as [|[k v] items' IH]; simpl; congruence.
Qed.

Lemma or_constant_and_dict_values_witness :
  exists (l : loc) (st' : store),
    binary_or example_globals 0 [VFunc "double"] (VComposable 0) (VInt 4)
    = Some (Ret (VComposable l, st'))
    /\ runs example_globals st' (VComposable l) [VStr (lit "ignored")]
         (Ret (VInt 8)).
Proof.
  destruct (proj1 (or_constant_and_dict_values example_globals 0
                     [VFunc "double"] 0 (VFunc "double") (VInt 4)
                     eq_refl eq_refl))
    as (l & st' & Hor & _ & _ & Hrun & _).
  exists l, st'. split; [exact Hor|].
  apply Hrun. exists 1%nat. reflexivity.
Defined.

(** A [dict] whose key is a function: the key is kept, the value is
    called. *)
Example ror_dict_keeps_keys :
  composable.__ror__ example_globals 1 [VFunc "identity"] 0
    (VDict [(VFunc "five", VFunc "five"); (VStr (lit "n"), VInt 1)])
  = Some (Ret (VDict [(VFunc "five", VInt 5); (VStr (lit "n"), VInt 1)])).
Proof. vm_compute. reflexivity. Qed.

(** ** Associativity *)

Section Chains.

Variable globals : string -> list value -> exec value.

Lemma seq_runs_app (st : store) (ls1 ls2 : list loc) (x : value)
  (r : result value) :
  seq_runs globals st (ls1 ++ ls2) x r <->
  (exists y, seq_runs globals st ls1 x (Ret y)
             /\ seq_runs globals st ls2 y r)
  \/ (exists e, r = Raise e /\ seq_runs globals st ls1 x (Raise e)).
Proof.
  revert x. induction ls1 as [|l ls1 IH]; intros x; simpl.
  - split.
    + intros H. left. exists x. now split.
    + intros [(y & Hy & H)|(e & _ & H)]; [|discriminate].
      now injection Hy as <-.
  - split.
    + intros [(y & Hl & H)|(e & -> & Hl)].
      * apply IH in H. destruct H as [(z & Hz & H)|(e & -> & He)].
        -- left. exists z. split; [left; eauto|exact H].
        -- right. exists e. split; [reflexivity|left; eauto].
      * right. exists e. split; [reflexivity|right; eauto].
    + intros [(z & [(y & Hl & Hz)|(e & He & _)] & H)
             |(e & -> & [(y & Hl & He)|(e' & He' & Hl)])];
        try discriminate.
      * left. exists y. split; [exact Hl|]. apply IH. left. eauto.
      * left. exists y. split; [exact Hl|]. apply IH. right. eauto.
      * right. exists e. split; [reflexivity|]. now injection He' as ->.
Qed.

Lemma seq_runs_ext (st ext : store) (ls : list loc) (x : value)
  (r : result value) :
  store_closed st = true -> valid_stages st ls = true ->
  seq_runs globals (st ++ ext) ls x r <-> seq_runs globals st ls x r.
Proof.
  intros Hst. revert x. induction ls as [|l ls IH]; intros x Hls; simpl.
  - tauto.
  - simpl in Hls. apply andb_true_iff in Hls. destruct Hls as [Hl Hls].
    assert (forall r', runs globals (st ++ ext) (VComposable l) [x] r'
                       <-> runs globals st (VComposable l) [x] r') as Hrun.
    { intros r'. now apply runs_ext. }
    split; intros [(y & Hy & H)|(e & -> & He)].
    + left. exists y. split; [now apply Hrun|now apply IH].
    + right. exists e. split; [reflexivity|now apply Hrun].
    + left. exists y. split; [now apply Hrun|now apply IH].
    + right. exists e. split; [reflexivity|now apply Hrun].
Qed.

Lemma seq_runs_single (st : store) (l : loc) (x : value) (r : result value) :
  seq_runs globals st [l] x r <-> runs globals st (VComposable l) [x] r.
Proof.
  simpl. split.
  - intros [(y & Hy & ->)|(e & -> & He)]; assumption.
  - intros H. destruct r as [y|e]; [left|right]; eauto.
Qed.

Lemma valid_stages_app (st : store) (ls1 ls2 : list loc) :
  valid_stages st (ls1 ++ ls2) = true <->
  valid_stages st ls1 = true /\ valid_stages st ls2 = true.
Proof.
  unfold valid_stages. rewrite forallb_app. apply andb_true_iff.
Qed.

Lemma valid_stages_grow (st ext : store) (ls : list loc) :
  valid_stages st ls = true -> valid_stages (st ++ ext) ls = true.
Proof.
  unfold valid_stages. rewrite !forallb_forall. intros H l Hl.
  specialize (H l Hl). apply Nat.ltb_lt in H. apply Nat.ltb_lt.
  rewrite length_app. lia.
Qed.

Lemma store_closed_new (st : store) (v : value) :
  store_closed st = true -> closed_below (S (length st)) v = true ->
  store_closed (st ++ [v]) = true.
Proof.
  unfold store_closed. intros Hst Hv.
  rewrite length_app, forallb_app. simpl.
  replace (length st + 1)%nat with (S (length st)) by lia.
  rewrite Hv. rewrite andb_true_r.
  apply forallb_forall. intros x Hx.
  rewrite forallb_forall in Hst.
  apply (closed_below_le (length st)); [now apply Hst|lia].
Qed.

(** A chain, in any grouping, evaluates to a new pipeline that behaves
    as its stages called one after the other. *)
Lemma eval_chain_seq (fuel : nat) (c : chain) (st : store) :
  store_closed st = true -> valid_stages st (leaves c) = true ->
  exists l ext,
    eval_chain globals fuel st c = Some (Ret (VComposable l, st ++ ext))
    /\ store_closed (st ++ ext) = true
    /\ (l < length (st ++ ext))%nat
    /\ forall x r,
        runs globals (st ++ ext) (VComposable l) [x] r
        <-> seq_runs globals st (leaves c) x r.
Proof.
  revert st. induction c as [l|a IHa b IHb]; intros st Hst Hv.
  - exists l, []. rewrite app_nil_r. simpl in *.
    apply andb_true_iff in Hv. destruct Hv as [Hl _].
    split; [reflexivity|]. split; [exact Hst|].
    split; [now apply Nat.ltb_lt|].
    intros x r. symmetry. apply seq_runs_single.
  - simpl in Hv. apply valid_stages_app in Hv. destruct Hv as [Hva Hvb].
    destruct (IHa st Hst Hva) as (la & e1 & Ea & Hst1 & Hla & Ra).
    destruct (IHb (st ++ e1) Hst1 (valid_stages_grow _ _ _ Hvb))
      as (lb & e2 & Eb & Hst2 & Hlb & Rb).
    set (st2 := (st ++ e1) ++ e2) in *.
    assert (exists fa, (st ++ e1) !! la = Some fa) as [fa Hfa].
    { apply lookup_lt_is_Some. exact Hla. }
    assert (st2 !! la = Some fa) as Hfa2 by now apply lookup_kept.
    exists (length st2), (e1 ++ e2 ++ [VLamThen la (VComposable lb)]).
    replace (st ++ e1 ++ e2 ++ [VLamThen la (VComposable lb)]) with (st2 ++ [VLamThen la (VComposable lb)])
      by (unfold st2; now rewrite <- !app_assoc).
    split.
    { simpl. rewrite Ea. simpl. rewrite Eb. simpl.
      destruct (or_new_object st2 la (VComposable lb)) as (lam' & -> & ->).
      reflexivity. }
    assert (store_closed (st2 ++ [VLamThen la (VComposable lb)]) = true) as Hst3.
    { apply store_closed_new; [exact Hst2|]. simpl.
      apply andb_true_iff. split; apply Nat.ltb_lt.
      - unfold st2. rewrite length_app. lia.
      - lia. }
    split; [exact Hst3|].
    split; [rewrite length_app; simpl; lia|].
    intros x r. rewrite (then_runs globals st2 la fa (VComposable lb) x r Hfa2).
    assert (forall y r', runs globals (st2 ++ [VLamThen la (VComposable lb)]) fa [y] r'
                         <-> seq_runs globals st (leaves a) y r') as Ha.
    { intros y r'. rewrite <- Ra.
      rewrite <- (runs_ext globals (st ++ e1) (e2 ++ [VLamThen la (VComposable lb)]) (VComposable la));
        [|exact Hst1|now apply Nat.ltb_lt].
      replace ((st ++ e1) ++ e2 ++ [VLamThen la (VComposable lb)]) with (st2 ++ [VLamThen la (VComposable lb)])
        by (unfold st2; now rewrite <- !app_assoc).
      rewrite runs_composable. split.
      - intros H. exists fa. split; [now apply lookup_kept|exact H].
      - intros (fa' & Hfa' & H).
        rewrite (lookup_kept _ _ _ _ Hfa2) in Hfa'. now injection Hfa' as <-. }
    assert (forall y r', runs globals (st2 ++ [VLamThen la (VComposable lb)]) (VComposable lb) [y] r'
                         <-> seq_runs globals st (leaves b) y r') as Hb.
    { intros y r'.
      rewrite (runs_ext globals st2 [VLamThen la (VComposable lb)] (VComposable lb));
        [|exact Hst2|now apply Nat.ltb_lt].
      rewrite Rb. now apply seq_runs_ext. }
    simpl. rewrite seq_runs_app. split.
    + intros [(y & Hy & H)|(e & -> & He)].
      * left. exists y. split; [now apply Ha|now apply Hb].
      * right. exists e. split; [reflexivity|now apply Ha].
    + intros [(y & Hy & H)|(e & -> & He)].
      * left. exists y. split; [now apply Ha|now apply Hb].
      * right. exists e. split; [reflexivity|now apply Ha].
Qed.

End Chains.

Lemma ror_force_args (globals : string -> list value -> exec value)
  (n : nat) (st : store) (self : loc) (other : value) :
  composable.__ror__ globals n st self other
  = let? args := force_args globals n st other in
    let? func := getattr_func st self in
    call globals n st func [args].
Proof.
  unfold composable.__ror__, force_args.
  destruct other; try reflexivity.
  - destruct (force_list globals n st xs) as [[ys|e]|]; reflexivity.
  - destruct (force_list globals n st xs) as [[ys|e]|]; reflexivity.
Qed.

Lemma force_args_mono (globals : string -> list value -> exec value)
  (n m : nat) (st : store) (other : value) (r : result value) :
  force_args globals n st other = Some r -> (n <= m)%nat ->
  force_args globals m st other = Some r.
Proof.
  intros H Hle. unfold force_args in *.
  destruct other; try exact H.
  - destruct (force_list globals n st xs) as [r'|] eqn:F; [|discriminate].
    now rewrite (force_list_mono globals n m _ _ _ F Hle).
  - destruct (force_list globals n st xs) as [r'|] eqn:F; [|discriminate].
    now rewrite (force_list_mono globals n m _ _ _ F Hle).
  - rewrite force_items_values in *.
    destruct (force_list globals n st (map snd items)) as [r'|] eqn:F;
      [|discriminate].
    now rewrite (force_list_mono globals n m _ _ _ F Hle).
Qed.

Lemma force_list_ext (globals : string -> list value -> exec value)
  (n : nat) (st ext : store) (xs : list value) :
  store_closed st = true ->
  forallb (closed_below (length st)) xs = true ->
  force_list globals n (st ++ ext) xs = force_list globals n st xs.
Proof.
  intros Hst. induction xs as [|i xs IH]; intros Hxs; [reflexivity|].
  simpl in *. apply andb_true_iff in Hxs. destruct Hxs as [Hi Hxs].
  unfold force. rewrite (call_ext globals n st ext) by assumption.
  now rewrite IH.
Qed.

Lemma force_args_ext (globals : string -> list value -> exec value)
  (n : nat) (st ext : store) (x : value) :
  store_closed st = true -> input_closed st x = true ->
  force_args globals n (st ++ ext) x = force_args globals n st x.
Proof.
  intros Hst Hx. unfold force_args.
  destruct x; try reflexivity; simpl in Hx.
  - now rewrite force_list_ext.
  - now rewrite force_list_ext.
  - rewrite !force_items_values. now rewrite force_list_ext.
Qed.

(** Piping [x] into an instance is calling the instance on the forced
    [x]. *)
Lemma ror_runs_call (globals : string -> list value -> exec value)
  (st : store) (self : loc) (x : value) (r : result value) :
  ror_runs globals st self x r <->
  (exists n args,
      force_args globals n st x = Some (Ret args)
      /\ runs globals st (VComposable self) [args] r)
  \/ (exists n e, force_args globals n st x = Some (Raise e) /\ r = Raise e).
Proof.
  unfold ror_runs. split.
  - intros [n H]. rewrite ror_force_args in H.
    destruct (force_args globals n st x) as [[args|e]|] eqn:F; simpl in H;
      [|injection H as <-; right; eauto|discriminate].
    left. exists n, args. split; [exact F|].
    unfold getattr_func in H.
    destruct (st !! self) as [func|] eqn:E; [|discriminate].
    apply runs_composable. exists func. split; [exact E|now exists n].
  - intros [(n & args & F & Hrun)|(n & e & F & ->)].
    + apply runs_composable in Hrun.
      destruct Hrun as (func & Hfunc & [m Hm]).
      exists (n + m)%nat. rewrite ror_force_args.
      rewrite (force_args_mono globals n (n + m) _ _ _ F) by lia. simpl.
      unfold getattr_func. rewrite Hfunc. simpl.
      apply (call_mono globals m); [assumption|lia].
    + exists n. rewrite ror_force_args. now rewrite F.
Qed.

Lemma same_stages_same_runs (globals : string -> list value -> exec value)
  (fuel : nat) (st : store) (c c' : chain) :
  store_closed st = true -> valid_stages st (leaves c) = true ->
  leaves c = leaves c' ->
  exists l st1 l' st2,
    eval_chain globals fuel st c = Some (Ret (VComposable l, st1))
    /\ eval_chain globals fuel st c' = Some (Ret (VComposable l', st2))
    /\ (forall x r,
          (runs globals st1 (VComposable l) [x] r
           <-> runs globals st2 (VComposable l') [x] r)
          /\ (runs globals st1 (VComposable l) [x] r
              <-> seq_runs globals st (leaves c) x r))
    /\ (forall x r,
          input_closed st x = true ->
          ror_runs globals st1 l x r <-> ror_runs globals st2 l' x r).
Proof.
  intros Hst Hv Hleaves.
  destruct (eval_chain_seq globals fuel c st Hst Hv)
    as (l & e1 & E1 & _ & _ & R1).
  rewrite Hleaves in Hv.
  destruct (eval_chain_seq globals fuel c' st Hst Hv)
    as (l' & e2 & E2 & _ & _ & R2).
  exists l, (st ++ e1), l', (st ++ e2).
  split; [exact E1|]. split; [exact E2|].
  assert (forall x r,
            runs globals (st ++ e1) (VComposable l) [x] r
            <-> runs globals (st ++ e2) (VComposable l') [x] r) as Hsame.
  { intros x r. rewrite R1, R2, Hleaves. tauto. }
  split.
  - intros x r. split; [apply Hsame|apply R1].
  - intros x r Hx. rewrite !ror_runs_call.
    assert (forall n, force_args globals n (st ++ e1) x
                      = force_args globals n (st ++ e2) x) as Hforce.
    { intros n. now rewrite !force_args_ext. }
    split.
    + intros [(n & args & F & Hrun)|(n & e & F & ->)].
      * left. exists n, args. rewrite <- Hforce. split; [exact F|].
        now apply Hsame.
      * right. exists n, e. now rewrite <- Hforce.
    + intros [(n & args & F & Hrun)|(n & e & F & ->)].
      * left. exists n, args. rewrite Hforce. split; [exact F|].
        now apply Hsame.
      * right. exists n, e. now rewrite Hforce.
Qed.

(** C8.  Chaining is associative.  For every closed store, every three
    instances [f], [g], [h] of it and every input [x], calling
    [(f | g) | h] on [x] returns or raises what calling [f | (g | h)]
    on [x] does, and both do what [f], [g] and [h] do when called one
    after the other, [h(g(f(x)))]; piping [x] into the one or into the
    other pipeline gives the same as well.  More generally two chains
    with the same stages in the same order, grouped in any way, evaluate
    to pipelines that return or raise the same on every input: what the
    stages do when called one after the other. *)
Theorem pipe_associative (globals : string -> list value -> exec value)
  (fuel : nat) (st : store) (f g h : loc) :
  store_closed st = true ->
  valid_stages st [f; g; h] = true ->
  (exists l1 st1 l2 st2,
      eval_chain globals fuel st (Pipe (Pipe (Stage f) (Stage g)) (Stage h))
      = Some (Ret (VComposable l1, st1))
      /\ eval_chain globals fuel st (Pipe (Stage f) (Pipe (Stage g) (Stage h)))
         = Some (Ret (VComposable l2, st2))
      /\ (forall x r,
            (runs globals st1 (VComposable l1) [x] r
             <-> runs globals st2 (VComposable l2) [x] r)
            /\ (runs globals st1 (VComposable l1) [x] r
                <-> seq_runs globals st [f; g; h] x r))
      /\ (forall x r,
            input_closed st x = true ->
            ror_runs globals st1 l1 x r <-> ror_runs globals st2 l2 x r))
  /\ (forall c c' : chain,
        valid_stages st (leaves c) = true ->
        leaves c = leaves c' ->
        exists l st1 l' st2,
          eval_chain globals fuel st c = Some (Ret (VComposable l, st1))
          /\ eval_chain globals fuel st c' = Some (Ret (VComposable l', st2))
          /\ (forall x r,
                (runs globals st1 (VComposable l) [x] r
                 <-> runs globals st2 (VComposable l') [x] r)
                /\ (runs globals st1 (VComposable l) [x] r
                    <-> seq_runs globals st (leaves c) x r))
          /\ (forall x r,
                input_closed st x = true ->
                ror_runs globals st1 l x r <-> ror_runs globals st2 l' x r)).
Proof.
  intros Hst Hv. split.
  - apply (same_stages_same_runs globals fuel st
             (Pipe (Pipe (Stage f) (Stage g)) (Stage h))
             (Pipe (Stage f) (Pipe (Stage g) (Stage h))) Hst Hv eq_refl).
  - intros c c' Hc Hleaves. now apply same_stages_same_runs.
Qed.

Lemma pipe_associative_witness :
  exists l1 st1 l2 st2,
    eval_chain example_globals 0
      [VFunc "double"; VFunc "succ"; VFunc "double"]
      (Pipe (Pipe (Stage 0) (Stage 1)) (Stage 2))
    = Some (Ret (VComposable l1, st1))
    /\ eval_chain example_globals 0
         [VFunc "double"; VFunc "succ"; VFunc "double"]
         (Pipe (Stage 0) (Pipe (Stage 1) (Stage 2)))
       = Some (Ret (VComposable l2, st2))
    /\ runs example_globals st1 (VComposable l1) [VInt 3] (Ret (VInt 14))
    /\ runs example_globals st2 (VComposable l2) [VInt 3] (Ret (VInt 14)).
Proof.
  destruct (proj1 (pipe_associative example_globals 0
                     [VFunc "double"; VFunc "succ"; VFunc "double"]
                     0 1 2 eq_refl eq_refl))
    as (l1 & st1 & l2 & st2 & E1 & E2 & H & _).
  exists l1, st1, l2, st2. split; [exact E1|]. split; [exact E2|].
  assert (seq_runs example_globals
            [VFunc "double"; VFunc "succ"; VFunc "double"]
            [0; 1; 2]%nat (VInt 3) (Ret (VInt 14))) as Hseq.
  { left. exists (VInt 6). split; [exists 2%nat; reflexivity|].
    left. exists (VInt 7). split; [exists 2%nat; reflexivity|].
    left. exists (VInt 14). split; [exists 2%nat; reflexivity|reflexivity]. }
  destruct (H (VInt 3) (Ret (VInt 14))) as [H12 H1].
  apply H1 in Hseq. split; [exact Hseq|now apply H12].
Defined.

(** Piping a value through the stages one at a time, [x | f | g], is
    not the call of the pipeline [f | g]: Python groups it as
    [(x | f) | g], and each [|] forces its left operand.  A [tuple]
    returned by [f] reaches [g] as a [list] there. *)
Example eager_pipe_forces_intermediate :
  (let? r1 := binary_or example_globals 1 [VFunc "pair"; VFunc "identity"]
                (VInt 1) (VComposable 0) in
   binary_or example_globals 1 (snd r1) (fst r1) (VComposable 1))
  = Some (Ret (VList [VInt 1; VInt 1], [VFunc "pair"; VFunc "identity"]))
  /\ (let? p := binary_or example_globals 1 [VFunc "pair"; VFunc "identity"]
                  (VComposable 0) (VComposable 1) in
      call example_globals 4 (snd p) (fst p) [VInt 1])
     = Some (Ret (VTuple [VInt 1; VInt 1])).
Proof. split; vm_compute; reflexivity. Qed.

(** ** Examples *)

Example json_loads_object :
  json_loads (lit "{'name':'Ann', 'job' : 'Cook'}")
  = Ret (JObject [(lit "name", JStr (lit "Ann")); (lit "job", JStr (lit "Cook"))]).
Proof. vm_compute. reflexivity. Qed.

Example json_loads_values :
  json_loads (lit " [1, -20, 1.5e3, true, null, {'a': [], 'a': 'xA\/'}] ")
  = Ret (JArray [JInt 1; JInt (-20); JFloat (lit "1.5e3"); JBool true; JNull;
                 JObject [(lit "a", JStr (lit "xA/"))]]).
Proof. vm_compute. reflexivity. Qed.

Example json_loads_escapes :
  json_loads (lit "'\u0041\ud83d\ude00\/'") = Ret (JStr [65; 128512; 47]).
Proof. vm_compute. reflexivity. Qed.

Example json_loads_refuses :
  json_loads (lit "{'name': }")
  = Raise (JSONDecodeError "Expecting value" (lit "{'name': }") 9)
  /\ json_loads (lit "3 4") = Raise (JSONDecodeError "Extra data" (lit "3 4") 2)
  /\ json_loads [] = Raise (JSONDecodeError "Expecting value" [] 0).
Proof. repeat split; vm_compute; reflexivity. Qed.

(** A record without [job] fails the request with a validation error
    that names the field [job]. *)
Example get_people_missing_job :
  step_2.get_people (mkPath true [lit "srv"; lit "src"])
    (fun _ => Text (lit "{'name':'Ann'}")) json_loads (lit "east")
  = Raise (ValidationError (VDict [(VStr (lit "name"), VStr (lit "Ann"))])
             [("job"%string, FieldMissing)]).
Proof. vm_compute. reflexivity. Qed.

(** A line that decodes to an array passes the parser and is refused by
    the converter, with a [TypeError]. *)
Example get_people_array_line :
  step_2.get_people (mkPath true [lit "srv"; lit "src"])
    (fun _ => Text (lit "[1, 2]\n")) json_loads (lit "east")
  = Raise (TypeError "argument after ** must be a mapping").
Proof. vm_compute. reflexivity. Qed.

Example get_people_step_3 :
  step_3.get_people 1 (mkPath true [lit "srv"; lit "src"])
    (fun _ => Text (lit "{'name':'Ann','job':'Cook'}\n\n{'name':'Bo','job':'Pilot'}\n"))
    json_loads (lit "east")
  = Some (Ret (VList [VContact (mkContact (lit "Ann") (lit "Cook"));
                      VContact (mkContact (lit "Bo") (lit "Pilot"))])).
Proof. vm_compute. reflexivity. Qed.

(** * Further properties *)

(** ** Paths *)

Lemma str_eqb_eq (a b : str) : str_eqb a b = true <-> a = b.
Proof.
  revert b. induction a as [|x a IH]; intros [|y b]; simpl;
    try (split; [discriminate|congruence]); [tauto|].
  rewrite andb_true_iff, N.eqb_eq, IH. split; [intros [-> ->]|intros H];
    [reflexivity|now injection H].
Qed.

Lemma txt_segment (area : str) :
  ~ In SLASH area -> path_segments (area ++ lit ".txt") = [area ++ lit ".txt"].
Proof.
  intros Hno. unfold path_segments.
  assert (~ In SLASH (area ++ lit ".txt")) as Hno'.
  { rewrite in_app_iff. intros [H|H]; [contradiction|].
    vm_compute in H.
    repeat (destruct H as [H|H]; [discriminate H|]). exact H. }
  rewrite (split_single _ _ Hno').
  assert (length (area ++ lit ".txt") = length area + 4)%nat as Hlen.
  { rewrite length_app. reflexivity. }
  set (s := area ++ lit ".txt") in *.
  assert (str_eqb s [] = false) as E1.
  { destruct (str_eqb s []) eqn:E; [|reflexivity].
    apply str_eqb_eq in E. rewrite E in Hlen. simpl in Hlen. lia. }
  assert (str_eqb s [DOT] = false) as E2.
  { destruct (str_eqb s [DOT]) eqn:E; [|reflexivity].
    apply str_eqb_eq in E. rewrite E in Hlen. simpl in Hlen. lia. }
  cbn [List.filter]. now rewrite E1, E2.
Qed.

Lemma txt_relative (area : str) :
  ~ In SLASH area -> is_absolute (area ++ lit ".txt") = false.
Proof.
  destruct area as [|c area]; [reflexivity|]. simpl.
  intros H. apply N.eqb_neq. intros ->. tauto.
Qed.

(** X1.  For an area without a slash, [create_filepath] names the file
    [<area>.txt] in the directory [data_files] next to the directory of
    the module, and different areas give different paths. *)
Theorem create_filepath_plain (here : Path) (area : str) :
  ~ In SLASH area ->
  step_2.create_filepath here area
  = mkPath (rooted here)
           (parts here ++ [DOTDOT; lit "data_files"; area ++ lit ".txt"])
  /\ forall area',
       ~ In SLASH area' ->
       step_2.create_filepath here area' = step_2.create_filepath here area ->
       area' = area.
Proof.
  assert (forall a, ~ In SLASH a ->
            step_2.create_filepath here a
            = mkPath (rooted here)
                (parts here ++ [DOTDOT; lit "data_files"; a ++ lit ".txt"]))
    as Hpath.
  { intros a Ha. unfold step_2.create_filepath.
    unfold truediv at 1. rewrite (txt_relative a Ha), (txt_segment a Ha).
    change (truediv (truediv here DOTDOT) (lit "data_files"))
      with (mkPath (rooted here)
              ((parts here ++ [DOTDOT]) ++ [lit "data_files"])).
    simpl. now rewrite <- !app_assoc. }
  intros Hno. split; [now apply Hpath|].
  intros area' Hno' H. rewrite !Hpath in H by assumption.
  injection H as H. apply app_inv_head in H. injection H as H.
  now apply app_inv_tail in H.
Qed.

Lemma create_filepath_plain_witness :
  step_2.create_filepath (mkPath true [lit "srv"; lit "src"]) (lit "east")
  = mkPath true [lit "srv"; lit "src"; lit ".."; lit "data_files";
                 lit "east.txt"].
Proof.
  refine (proj1 (create_filepath_plain (mkPath true [lit "srv"; lit "src"])
                   (lit "east") _)).
  vm_compute. intros H.
  repeat (destruct H as [H|H]; [discriminate H|]). exact H.
Defined.

(** X2.  An area that starts with a slash replaces the whole path: the
    path that is opened is the area followed by [.txt], rooted, whatever
    the directory of the module is. *)
Theorem create_filepath_absolute (here here' : Path) (area : str) :
  is_absolute area = true ->
  step_2.create_filepath here area
  = mkPath true (path_segments (area ++ lit ".txt"))
  /\ step_2.create_filepath here area = step_2.create_filepath here' area.
Proof.
  intros Habs.
  assert (forall h, step_2.create_filepath h area
                    = mkPath true (path_segments (area ++ lit ".txt"))) as H.
  { intros h. unfold step_2.create_filepath. unfold truediv at 1.
    destruct area as [|c area]; [discriminate|].
    simpl in *. now rewrite Habs. }
  split; [apply H|]. now rewrite !H.
Qed.

Lemma create_filepath_absolute_witness :
  step_2.create_filepath (mkPath true [lit "srv"; lit "src"]) (lit "/etc/passwd")
  = mkPath true [lit "etc"; lit "passwd.txt"].
Proof.
  exact (proj1 (create_filepath_absolute (mkPath true [lit "srv"; lit "src"])
                  (mkPath false []) (lit "/etc/passwd") eq_refl)).
Defined.

(** ** Lines of a file *)

Lemma split_app (sep : N) (a b : str) :
  split sep (a ++ sep :: b) = split sep a ++ split sep b.
Proof.
  induction a as [|c a IH]; simpl.
  - now rewrite N.eqb_refl.
  - destruct (c =? sep); [now rewrite IH|].
    rewrite IH. destruct (split sep a) as [|seg segs] eqn:S.
    + now apply split_not_nil in S.
    + reflexivity.
Qed.

Lemma nonblank_segments_app (a b : str) :
  nonblank_segments (a ++ NEWLINE :: b)
  = nonblank_segments a ++ nonblank_segments b.
Proof.
  unfold nonblank_segments. rewrite split_app. apply List.filter_app.
Qed.

Lemma nonblank_segments_blank (w : str) :
  forallb isspace w = true -> nonblank_segments w = [].
Proof.
  intros Hw. unfold nonblank_segments.
  assert (Forall (fun seg => is_blank seg = true) (split NEWLINE w)) as H.
  { induction w as [|c w IH]; simpl.
    - repeat constructor.
    - simpl in Hw. apply andb_true_iff in Hw. destruct Hw as [Hc Hw].
      specialize (IH Hw).
      destruct (c =? NEWLINE); [constructor; [reflexivity|exact IH]|].
      destruct (split NEWLINE w) as [|seg segs];
        [constructor; [simpl; now rewrite Hc|constructor]|].
      inversion IH as [|? ? Hseg Hsegs]; subst.
      constructor; [|exact Hsegs]. simpl. rewrite Hc. simpl.
      destruct seg; [reflexivity|exact Hseg]. }
  induction H as [|seg segs Hseg _ IH]; [reflexivity|].
  simpl. now rewrite Hseg.
Qed.

Lemma nonblank_segments_no_newline (buf : str) :
  Forall (fun l => ~ In NEWLINE l) (nonblank_segments buf).
Proof.
  unfold nonblank_segments. apply List.Forall_forall. intros l Hl.
  apply filter_In in Hl. destruct Hl as [Hl _].
  pose proof (split_no_sep NEWLINE buf) as H.
  rewrite List.Forall_forall in H. now apply H.
Qed.

Lemma filter_nonblank_id (ls : list str) :
  Forall (fun l => is_blank l = false) ls ->
  List.filter (fun seg => negb (is_blank seg)) ls = ls.
Proof.
  induction 1 as [|l ls Hl _ IH]; [reflexivity|].
  simpl. now rewrite Hl, IH.
Qed.

Lemma nonblank_segments_nonblank (buf : str) :
  Forall (fun l => is_blank l = false) (nonblank_segments buf).
Proof.
  unfold nonblank_segments. apply List.Forall_forall. intros l Hl.
  apply filter_In in Hl. destruct Hl as [_ Hl].
  now apply negb_true_iff in Hl.
Qed.

(** X3.  Reading two files written one after the other, with a line
    feed between them, gives the lines of the first followed by the
    lines of the second. *)
Theorem read_lines_concat (fs : filesystem) (pa pb pc : Path) (a b : str) :
  fs pa = Text a -> fs pb = Text b -> fs pc = Text (a ++ NEWLINE :: b) ->
  exists la lb,
    step_2.read_lines fs pa = Ret la
    /\ step_2.read_lines fs pb = Ret lb
    /\ step_2.read_lines fs pc = Ret (la ++ lb).
Proof.
  intros Ha Hb Hc.
  exists (nonblank_segments a), (nonblank_segments b).
  rewrite (read_lines_text _ _ _ Ha), (read_lines_text _ _ _ Hb),
    (read_lines_text _ _ _ Hc), nonblank_segments_app.
  repeat split.
Qed.

(** X4.  Blank lines do not count: a line of white space inserted
    between two lines, appended after the last line or put before the
    first one leaves the result of [read_lines] unchanged; so does a
    line feed at the end of the file. *)
Theorem read_lines_blank_lines (fs fs' : filesystem) (p p' : Path)
  (buf buf' w : str) :
  forallb isspace w = true ->
  fs p = Text buf ->
  fs' p' = Text buf' ->
  (exists a b, buf = a ++ NEWLINE :: b /\ buf' = a ++ NEWLINE :: w ++ NEWLINE :: b)
  \/ buf' = buf ++ NEWLINE :: w
  \/ buf' = w ++ NEWLINE :: buf ->
  step_2.read_lines fs' p' = step_2.read_lines fs p.
Proof.
  intros Hw Hfs Hfs' Hbuf.
  rewrite (read_lines_text _ _ _ Hfs), (read_lines_text _ _ _ Hfs').
  f_equal.
  destruct Hbuf as [(a & b & -> & ->)| [-> | ->]];
    rewrite !nonblank_segments_app, (nonblank_segments_blank w Hw).
  - reflexivity.
  - now rewrite app_nil_r.
  - reflexivity.
Qed.

(** X5.  Writing the lines that [read_lines] returns back to a file,
    one per line, and reading that file gives the same lines. *)
Theorem read_lines_rewrite (fs fs' : filesystem) (p : Path) (buf : str)
  (lines : list str) :
  fs p = Text buf ->
  step_2.read_lines fs p = Ret lines ->
  fs' p = Text (join NEWLINE lines) ->
  step_2.read_lines fs' p = Ret lines.
Proof.
  intros Hfs Hlines Hfs'.
  rewrite (read_lines_text _ _ _ Hfs) in Hlines. injection Hlines as <-.
  rewrite (read_lines_text _ _ _ Hfs'). f_equal.
  destruct (nonblank_segments buf) as [|l ls] eqn:E; [reflexivity|].
  unfold nonblank_segments at 1.
  rewrite split_join.
  - rewrite <- E. apply filter_nonblank_id, nonblank_segments_nonblank.
  - discriminate.
  - rewrite <- E. apply nonblank_segments_no_newline.
Qed.

Lemma read_lines_concat_witness :
  exists la lb,
    step_2.read_lines
      (fun p => if rooted p then Text (lit "a\nb") else Text (lit "c\n"))
      (mkPath true []) = Ret la
    /\ step_2.read_lines
         (fun p => if rooted p then Text (lit "a\nb") else Text (lit "c\n"))
         (mkPath false []) = Ret lb
    /\ step_2.read_lines (fun _ => Text (lit "a\nb\nc\n")) (mkPath true [])
       = Ret (la ++ lb).
Proof.
  destruct (read_lines_concat
              (fun p => match parts p with
                        | [] => if rooted p then Text (lit "a\nb")
                                else Text (lit "c\n")
                        | _ => Text (lit "a\nb\nc\n")
                        end)
              (mkPath true []) (mkPath false []) (mkPath true [[]])
              (lit "a\nb") (lit "c\n") eq_refl eq_refl eq_refl)
    as (la & lb & Ha & Hb & Hc).
  exists la, lb. repeat split; assumption.
Defined.

Lemma read_lines_blank_lines_witness :
  step_2.read_lines (fun _ => Text (lit "a\n \t\nb")) (mkPath true [])
  = step_2.read_lines (fun _ => Text (lit "a\nb")) (mkPath true []).
Proof.
  apply (read_lines_blank_lines (fun _ => Text (lit "a\nb"))
           (fun _ => Text (lit "a\n \t\nb")) (mkPath true []) (mkPath true [])
           (lit "a\nb") (lit "a\n \t\nb") (lit " \t") eq_refl eq_refl eq_refl).
  left. exists (lit "a"), (lit "b"). split; reflexivity.
Defined.

Lemma read_lines_rewrite_witness :
  step_2.read_lines (fun _ => Text (lit " a\nb ")) (mkPath true [])
  = Ret [lit " a"; lit "b "].
Proof.
  exact (read_lines_rewrite (fun _ => Text (lit "\n a\n\n\nb \n"))
           (fun _ => Text (lit " a\nb ")) (mkPath true [])
           (lit "\n a\n\n\nb \n") [lit " a"; lit "b "]
           eq_refl eq_refl eq_refl).
Defined.

(** ** The endpoint on whole files *)

Lemma get_people_text (here : Path) (fs : filesystem)
  (decoder : str -> result json) (area : str) (buf : str) :
  fs (step_2.create_filepath here area) = Text buf ->
  step_2.get_people here fs decoder area
  = let* dicts := step_2.parse_dicts decoder (nonblank_segments buf) in
    step_2.convert_to_contacts dicts.
Proof.
  intros Hfs. unfold step_2.get_people.
  now rewrite (read_lines_text _ _ _ Hfs).
Qed.

(** X6.  A data file that exists and holds nothing but white space (an
    empty file included) gives the empty list of contacts, in the three
    variants; only a missing file is an error. *)
Theorem get_people_blank_file (here : Path) (fs : filesystem)
  (decoder : str -> result json) (area : str) (buf : str) (fuel : nat) :
  fs (step_2.create_filepath here area) = Text buf ->
  forallb isspace buf = true ->
  step_1.get_people here fs decoder area = Ret []
  /\ step_2.get_people here fs decoder area = Ret []
  /\ step_3.get_people (S fuel) here fs decoder area = Some (Ret (VList [])).
Proof.
  intros Hfs Hblank.
  assert (step_2.get_people here fs decoder area = Ret []) as H2.
  { rewrite (get_people_text _ _ _ _ _ Hfs).
    now rewrite (nonblank_segments_blank buf Hblank). }
  split; [now rewrite step_1_step_2|]. split; [exact H2|].
  now rewrite step_3_step_2, H2.
Qed.

Lemma get_people_blank_file_witness :
  step_2.get_people (mkPath true [lit "srv"]) (fun _ => Text (lit "\n  \n\t\n"))
    json_loads (lit "east") = Ret [].
Proof.
  exact (proj1 (proj2 (get_people_blank_file (mkPath true [lit "srv"])
                         (fun _ => Text (lit "\n  \n\t\n")) json_loads
                         (lit "east") (lit "\n  \n\t\n") 0 eq_refl eq_refl))).
Defined.

(** X7.  Every line is decoded before any record is validated: when
    the decoder refuses a line, the request fails with the exception of
    the first refused line, even if a record of an earlier line would
    not pass the validation. *)
Theorem get_people_decode_error (here : Path) (fs : filesystem)
  (decoder : str -> result json) (area : str) (buf : str)
  (pre post : list str) (line : str) (e : exn) (fuel : nat) :
  fs (step_2.create_filepath here area) = Text buf ->
  nonblank_segments buf = pre ++ line :: post ->
  Forall (fun l => exists j, decoder l = Ret j) pre ->
  decoder line = Raise e ->
  step_1.get_people here fs decoder area = Raise e
  /\ step_2.get_people here fs decoder area = Raise e
  /\ step_3.get_people (S fuel) here fs decoder area = Some (Raise e).
Proof.
  intros Hfs Hlines Hpre Hline.
  assert (step_2.get_people here fs decoder area = Raise e) as H2.
  { rewrite (get_people_text _ _ _ _ _ Hfs), Hlines.
    replace (step_2.parse_dicts decoder (pre ++ line :: post))
      with (@Raise (list value) e); [reflexivity|].
    symmetry. apply comprehension_Raise.
    destruct (prefix_decoded _ _ Hpre) as [vs Hvs].
    exists pre, line, post, vs. split; [reflexivity|].
    split; [assumption|now apply loads_Raise]. }
  split; [now rewrite step_1_step_2|]. split; [exact H2|].
  now rewrite step_3_step_2, H2.
Qed.

Lemma get_people_decode_error_witness :
  step_2.get_people (mkPath true [lit "srv"])
    (fun _ => Text (lit "{'name':'Ann'}\n{'name': }\n")) json_loads (lit "east")
  = Raise (JSONDecodeError "Expecting value" (lit "{'name': }") 9).
Proof.
  refine (proj1 (proj2 (get_people_decode_error (mkPath true [lit "srv"])
            (fun _ => Text (lit "{'name':'Ann'}\n{'name': }\n")) json_loads
            (lit "east") (lit "{'name':'Ann'}\n{'name': }\n")
            [lit "{'name':'Ann'}"] [] (lit "{'name': }")
            (JSONDecodeError "Expecting value" (lit "{'name': }") 9) 0
            eq_refl _ _ _))).
  - vm_compute. reflexivity.
  - constructor; [|constructor].
    exists (JObject [(lit "name", JStr (lit "Ann"))]). vm_compute. reflexivity.
  - vm_compute. reflexivity.
Defined.

Lemma Contact_new_not_object (j : json) :
  (forall items, j <> JObject items) ->
  Contact_new (of_json j) = Raise (TypeError "argument after ** must be a mapping").
Proof.
  intros H. destruct j; try reflexivity. now destruct (H items).
Qed.

Lemma Contact_new_of_json (j : json) (c : Contact) :
  Contact_new (of_json j) = Ret c <->
  exists items, j = JObject items /\ has_contact items c.
Proof.
  split.
  - intros H. destruct j; try discriminate H.
    exists items. split; [reflexivity|]. now apply Contact_new_Ret.
  - intros (items & -> & H). now apply Contact_new_ok.
Qed.

(** X8.  When every line is accepted by the decoder and the first line
    that does not hold a contact holds a JSON value that is not an
    object (an array, a string, a number, [true], [false] or [null]),
    the request fails with a [TypeError], raised by the unpacking in
    [Contact( **rec )]. *)
Theorem get_people_not_an_object (here : Path) (fs : filesystem)
  (decoder : str -> result json) (area : str) (buf : str)
  (pre post : list json) (j : json) (fuel : nat) :
  fs (step_2.create_filepath here area) = Text buf ->
  Forall2 (fun l j' => decoder l = Ret j') (nonblank_segments buf)
          (pre ++ j :: post) ->
  Forall (fun j' => exists items, j' = JObject items /\ schema_ok items) pre ->
  (forall items, j <> JObject items) ->
  step_1.get_people here fs decoder area
  = Raise (TypeError "argument after ** must be a mapping")
  /\ step_2.get_people here fs decoder area
     = Raise (TypeError "argument after ** must be a mapping")
  /\ step_3.get_people (S fuel) here fs decoder area
     = Some (Raise (TypeError "argument after ** must be a mapping")).
Proof.
  intros Hfs Hdec Hpre Hj.
  assert (step_2.get_people here fs decoder area
          = Raise (TypeError "argument after ** must be a mapping")) as H2.
  { rewrite (get_people_text _ _ _ _ _ Hfs).
    rewrite (parse_dicts_Ret _ _ _ Hdec). simpl.
    apply comprehension_Raise.
    assert (exists cs, Forall2 (fun v c => Contact_new v = Ret c)
                         (map of_json pre) cs) as [cs Hcs].
    { clear -Hpre. induction Hpre as [|j' js (items & -> & [c Hc]) _ [cs IH]].
      - exists []. constructor.
      - exists (c :: cs). constructor; [|exact IH].
        now apply Contact_new_ok. }
    exists (map of_json pre), (of_json j), (map of_json post), cs.
    split; [now rewrite map_app|]. split; [exact Hcs|].
    now apply Contact_new_not_object. }
  split; [now rewrite step_1_step_2|]. split; [exact H2|].
  now rewrite step_3_step_2, H2.
Qed.

Lemma get_people_not_an_object_witness :
  step_2.get_people (mkPath true [lit "srv"])
    (fun _ => Text (lit "{'name':'Ann','job':'Cook'}\n[1, 2]\n")) json_loads
    (lit "east")
  = Raise (TypeError "argument after ** must be a mapping").
Proof.
  refine (proj1 (proj2 (get_people_not_an_object (mkPath true [lit "srv"])
            (fun _ => Text (lit "{'name':'Ann','job':'Cook'}\n[1, 2]\n"))
            json_loads (lit "east")
            (lit "{'name':'Ann','job':'Cook'}\n[1, 2]\n")
            [JObject [(lit "name", JStr (lit "Ann"));
                      (lit "job", JStr (lit "Cook"))]]
            [] (JArray [JInt 1; JInt 2]) 0 eq_refl _ _ _))).
  - vm_compute nonblank_segments.
    constructor; [vm_compute; reflexivity|].
    constructor; [vm_compute; reflexivity|constructor].
  - constructor; [|constructor]. eexists. split; [reflexivity|].
    exists (mkContact (lit "Ann") (lit "Cook")). split; vm_compute; reflexivity.
  - intros items H. discriminate H.
Defined.

Lemma parse_convert_Ret (decoder : str -> result json) (lines : list str)
  (contacts : list Contact) :
  (let* dicts := step_2.parse_dicts decoder lines in
   step_2.convert_to_contacts dicts) = Ret contacts <->
  Forall2 (line_holds decoder) lines contacts.
Proof.
  split.
  - destruct (step_2.parse_dicts decoder lines) as [vs|e] eqn:P;
      [|discriminate]. simpl. intros C.
    apply comprehension_Ret in P. apply comprehension_Ret in C.
    revert contacts C. induction P as [|l v ls vs Hl _ IH];
      intros contacts C; inversion C as [|? c ? cs Hc Hcs]; subst;
      constructor; [|now apply IH].
    apply loads_Ret in Hl. destruct Hl as (j & Hj & ->).
    apply Contact_new_of_json in Hc. destruct Hc as (items & -> & Hc).
    exists items. now split.
  - intros H. destruct (parse_lines_ok _ _ _ H) as (recs & -> & Hrecs).
    simpl. now apply convert_records_ok.
Qed.

(** X9.  The endpoint returns a list of contacts exactly when every
    non-blank line of the file is a JSON object whose [name] and [job]
    are strings; the list then holds, line by line, those two strings.
    So a returned list never leaves a line out and never holds a
    contact that no line describes. *)
Theorem get_people_returns_iff (here : Path) (fs : filesystem)
  (decoder : str -> result json) (area : str) (buf : str)
  (contacts : list Contact) :
  fs (step_2.create_filepath here area) = Text buf ->
  (step_2.get_people here fs decoder area = Ret contacts
   <-> Forall2 (line_holds decoder) (nonblank_segments buf) contacts)
  /\ (step_1.get_people here fs decoder area = Ret contacts
      <-> Forall2 (line_holds decoder) (nonblank_segments buf) contacts).
Proof.
  intros Hfs. rewrite step_1_step_2, (get_people_text _ _ _ _ _ Hfs).
  split; apply parse_convert_Ret.
Qed.

Lemma get_people_returns_iff_witness :
  Forall2 (line_holds json_loads)
    (nonblank_segments (lit "{'job':'Cook','name':'Ann','age':3}\n"))
    [mkContact (lit "Ann") (lit "Cook")].
Proof.
  apply (proj1 (get_people_returns_iff (mkPath true [lit "srv"])
                  (fun _ => Text (lit "{'job':'Cook','name':'Ann','age':3}\n"))
                  json_loads (lit "east")
                  (lit "{'job':'Cook','name':'Ann','age':3}\n")
                  [mkContact (lit "Ann") (lit "Cook")] eq_refl)).
  vm_compute. reflexivity.
Defined.

(** X10.  The contacts of two files written one after the other, with a
    line feed between them, are the contacts of the first followed by
    the contacts of the second. *)
Theorem get_people_concat (here : Path) (fs : filesystem)
  (decoder : str -> result json) (area1 area2 area : str) (a b : str)
  (contacts1 contacts2 : list Contact) :
  fs (step_2.create_filepath here area1) = Text a ->
  fs (step_2.create_filepath here area2) = Text b ->
  fs (step_2.create_filepath here area) = Text (a ++ NEWLINE :: b) ->
  step_2.get_people here fs decoder area1 = Ret contacts1 ->
  step_2.get_people here fs decoder area2 = Ret contacts2 ->
  step_2.get_people here fs decoder area = Ret (contacts1 ++ contacts2).
Proof.
  intros Ha Hb Hab H1 H2.
  rewrite (get_people_text _ _ _ _ _ Ha) in H1.
  rewrite (get_people_text _ _ _ _ _ Hb) in H2.
  rewrite (get_people_text _ _ _ _ _ Hab).
  apply parse_convert_Ret in H1. apply parse_convert_Ret in H2.
  apply parse_convert_Ret. rewrite nonblank_segments_app.
  now apply Forall2_app.
Qed.

(** The file system of the example: three areas. *)
Lemma get_people_concat_witness :
  step_2.get_people (mkPath true [lit "srv"])
    (fun p => match parts p with
              | [_; _; _; f] =>
                  if str_eqb f (lit "east.txt")
                  then Text (lit "{'name':'Ann','job':'Cook'}")
                  else if str_eqb f (lit "west.txt")
                  then Text (lit "{'name':'Bo','job':'Pilot'}\n")
                  else Text (lit "{'name':'Ann','job':'Cook'}\n{'name':'Bo','job':'Pilot'}\n")
              | _ => Missing
              end)
    json_loads (lit "all")
  = Ret ([mkContact (lit "Ann") (lit "Cook")] ++ [mkContact (lit "Bo") (lit "Pilot")]).
Proof.
  apply (get_people_concat (mkPath true [lit "srv"]) _ json_loads
           (lit "east") (lit "west") (lit "all")
           (lit "{'name':'Ann','job':'Cook'}")
           (lit "{'name':'Bo','job':'Pilot'}\n"));
    vm_compute; reflexivity.
Defined.




(** ** Instances of [composable] *)

(** X12.  Decorating is transparent for calls: [composable(func)] is a
    new instance, no existing instance changes, and calling it with any
    arguments, as many as there are, returns or raises what [func] does
    with the same arguments. *)
Theorem composable_transparent (globals : string -> list value -> exec value)
  (st : store) (func : value) :
  exists (l : loc) (st' : store),
    composable.__init__ st func = (VComposable l, st')
    /\ st !! l = None
    /\ st' !! l = Some func
    /\ (forall l' v, st !! l' = Some v -> st' !! l' = Some v)
    /\ (forall fuel args,
          composable.__call__ globals fuel st' l args
          = call globals fuel st' func args)
    /\ (forall args r,
          runs globals st' (VComposable l) args r
          <-> runs globals st' func args r).
Proof.
  destruct (lookup_new st func) as [Hfree Hnew].
  exists (length st), (st ++ [func]).
  split; [reflexivity|]. split; [exact Hfree|]. split; [exact Hnew|].
  split; [intros l' v; apply lookup_kept|]. split.
  - intros fuel args. unfold composable.__call__, getattr_func.
    now rewrite Hnew.
  - intros args r. rewrite runs_composable. split.
    + intros (f' & Hf' & H). rewrite Hnew in Hf'. now injection Hf' as <-.
    + intros H. eauto.
Qed.

(** X13.  [composable] accepts an object that is not callable; the
    failure comes with the first call of the instance, a [TypeError]. *)
Theorem composable_not_callable (globals : string -> list value -> exec value)
  (st : store) (func : value) (args : list value) :
  callable func = false ->
  exists (l : loc) (st' : store),
    composable.__init__ st func = (VComposable l, st')
    /\ runs globals st' (VComposable l) args
         (Raise (TypeError "object is not callable")).
Proof.
  intros Hfunc. destruct (lookup_new st func) as [_ Hnew].
  exists (length st), (st ++ [func]). split; [reflexivity|].
  apply runs_composable. exists func. split; [exact Hnew|].
  exists 1%nat. destruct func; try discriminate Hfunc; reflexivity.
Qed.

Lemma composable_not_callable_witness :
  exists (l : loc) (st' : store),
    composable.__init__ [] (VInt 5) = (VComposable l, st')
    /\ runs example_globals st' (VComposable l) [VInt 1]
         (Raise (TypeError "object is not callable")).
Proof.
  exact (composable_not_callable example_globals [] (VInt 5) [VInt 1] eq_refl).
Defined.

(** X14.  A pipeline built with [|] takes exactly one argument: called
    with none or with more than one it raises a [TypeError], whatever
    its two operands are. *)
Theorem pipeline_one_argument (globals : string -> list value -> exec value)
  (st : store) (self : loc) (other : value) (args : list value) :
  length args <> 1%nat ->
  exists (l : loc) (st' : store) (msg : string),
    composable.__or__ st self other = (VComposable l, st')
    /\ runs globals st' (VComposable l) args (Raise (TypeError msg)).
Proof.
  intros Hargs.
  destruct (or_new_object st self other) as (lam & Hor & Hlam).
  destruct (lookup_new st lam) as [_ Hnew].
  exists (length st), (st ++ [lam]).
  assert (exists msg, call globals 1 (st ++ [lam]) lam args
                      = Some (Raise (TypeError msg))) as [msg Hmsg].
  { destruct (callable other); subst lam;
      destruct args as [|a [|b args]]; simpl in *; try lia; eauto. }
  exists msg. split; [exact Hor|].
  apply runs_composable. exists lam. split; [exact Hnew|]. now exists 1%nat.
Qed.

Lemma pipeline_one_argument_witness :
  exists (l : loc) (st' : store) (msg : string),
    composable.__or__ [VFunc "double"] 0 (VFunc "succ") = (VComposable l, st')
    /\ runs example_globals st' (VComposable l) [VInt 1; VInt 2]
         (Raise (TypeError msg)).
Proof.
  apply (pipeline_one_argument example_globals [VFunc "double"] 0
           (VFunc "succ") [VInt 1; VInt 2]).
  simpl. lia.
Defined.

(** X15.  One [|] creates one instance and nothing else: evaluating a
    chain adds as many instances to the store as it has [|] operators,
    its value is an instance, and no instance that existed before is
    changed. *)
Theorem eval_chain_allocates (globals : string -> list value -> exec value)
  (fuel : nat) (c : chain) (st : store) :
  exists (l : loc) (ext : store),
    eval_chain globals fuel st c = Some (Ret (VComposable l, st ++ ext))
    /\ length ext = pipes c
    /\ forall l' v, st !! l' = Some v -> (st ++ ext) !! l' = Some v.
Proof.
  revert st. induction c as [l|a IHa b IHb]; intros st.
  - exists l, []. rewrite app_nil_r. repeat split; auto.
  - destruct (IHa st) as (la & e1 & Ea & L1 & _).
    destruct (IHb (st ++ e1)) as (lb & e2 & Eb & L2 & _).
    destruct (or_new_object ((st ++ e1) ++ e2) la (VComposable lb))
      as (lam & Hor & _).
    exists (length ((st ++ e1) ++ e2)), (e1 ++ e2 ++ [lam]).
    split; [|split].
    + simpl. rewrite Ea. simpl. rewrite Eb. simpl. rewrite Hor.
      now rewrite <- !app_assoc.
    + rewrite !length_app. simpl. lia.
    + intros l' v. apply lookup_kept.
Qed.

(** ** Piping a value in *)

Lemma ror_mono (globals : string -> list value -> exec value) (n m : nat)
  (st : store) (self : loc) (x : value) (r : result value) :
  composable.__ror__ globals n st self x = Some r -> (n <= m)%nat ->
  composable.__ror__ globals m st self x = Some r.
Proof.
  rewrite !ror_force_args. intros H Hle.
  destruct (force_args globals n st x) as [[args|e]|] eqn:F; simpl in H;
    [|injection H as <-|discriminate].
  - rewrite (force_args_mono globals n m _ _ _ F Hle). simpl.
    destruct (getattr_func st self) as [[func|e]|]; simpl in *;
      [|exact H|discriminate].
    exact (call_mono globals n m _ _ _ _ H Hle).
  - now rewrite (force_args_mono globals n m _ _ _ F Hle).
Qed.

Lemma force_args_grow (globals : string -> list value -> exec value)
  (n : nat) (st ext : store) (x : value) (r : result value) :
  force_args globals n st x = Some r ->
  force_args globals n (st ++ ext) x = Some r.
Proof.
  assert (forall xs rl, force_list globals n st xs = Some rl ->
            force_list globals n (st ++ ext) xs = Some rl) as Hlist.
  { induction xs as [|i xs IH]; intros rl H; [exact H|]. simpl in *.
    unfold force in *.
    destruct (callable i).
    - destruct (call globals n st i []) as [[y|e]|] eqn:C; simpl in H;
        [|injection H as <-|discriminate];
        rewrite (call_grow globals n st ext _ _ _ C); simpl; [|reflexivity].
      destruct (force_list globals n st xs) as [rl'|] eqn:L; [|discriminate].
      now rewrite (IH _ eq_refl).
    - simpl in *.
      destruct (force_list globals n st xs) as [rl'|] eqn:L; [|discriminate].
      now rewrite (IH _ eq_refl). }
  unfold force_args. destruct x; try (intros H; exact H).
  - destruct (force_list globals n st xs) as [rl|] eqn:L; [|discriminate].
    now rewrite (Hlist _ _ L).
  - destruct (force_list globals n st xs) as [rl|] eqn:L; [|discriminate].
    now rewrite (Hlist _ _ L).
  - rewrite !force_items_values.
    destruct (force_list globals n st (map snd items)) as [rl|] eqn:L;
      [|discriminate].
    now rewrite (Hlist _ _ L).
Qed.

Lemma ror_runs_grow (globals : string -> list value -> exec value)
  (st ext : store) (self : loc) (x : value) (r : result value) :
  ror_runs globals st self x r -> ror_runs globals (st ++ ext) self x r.
Proof.
  rewrite !ror_runs_call.
  intros [(n & args & F & Hrun)|(n & e & F & ->)].
  - left. exists n, args. split; [now apply force_args_grow|].
    now apply runs_grow.
  - right. exists n, e. split; [now apply force_args_grow|reflexivity].
Qed.

Lemma ror_runs_ext (globals : string -> list value -> exec value)
  (st ext : store) (self : loc) (x : value) (r : result value) :
  store_closed st = true -> input_closed st x = true ->
  (self < length st)%nat ->
  ror_runs globals (st ++ ext) self x r <-> ror_runs globals st self x r.
Proof.
  intros Hst Hx Hself. split; [|apply ror_runs_grow].
  rewrite !ror_runs_call.
  intros [(n & args & F & Hrun)|(n & e & F & ->)].
  - left. exists n, args. rewrite force_args_ext in F by assumption.
    split; [exact F|].
    apply (runs_ext globals st ext) in Hrun; [exact Hrun|exact Hst|].
    now apply Nat.ltb_lt.
  - right. exists n, e. rewrite force_args_ext in F by assumption. now split.
Qed.

Lemma ror_then (globals : string -> list value -> exec value) (st : store)
  (self : loc) (f g x : value) (r : result value) :
  st !! self = Some f ->
  ror_runs globals (st ++ [VLamThen self g]) (length st) x r <->
  (exists y, ror_runs globals (st ++ [VLamThen self g]) self x (Ret y)
             /\ runs globals (st ++ [VLamThen self g]) g [y] r)
  \/ (exists e, r = Raise e
                /\ ror_runs globals (st ++ [VLamThen self g]) self x (Raise e)).
Proof.
  intros Hself. set (st' := st ++ [VLamThen self g]).
  assert (forall args r',
            runs globals st' (VComposable self) [args] r'
            <-> runs globals st' f [args] r') as Hf.
  { intros args r'. rewrite runs_composable. split.
    - intros (f' & Hf' & H). unfold st' in Hf'.
      rewrite (lookup_kept _ _ _ _ Hself) in Hf'. now injection Hf' as <-.
    - intros H. exists f. split; [now apply lookup_kept|exact H]. }
  rewrite ror_runs_call. split.
  - intros [(n & args & F & Hrun)|(n & e & F & ->)].
    + apply (then_runs globals st self f g args r Hself) in Hrun.
      destruct Hrun as [(y & Hy & Hg)|(e & -> & He)].
      * left. exists y. split; [|exact Hg].
        apply ror_runs_call. left. exists n, args. split; [exact F|].
        now apply Hf.
      * right. exists e. split; [reflexivity|].
        apply ror_runs_call. left. exists n, args. split; [exact F|].
        now apply Hf.
    + right. exists e. split; [reflexivity|].
      apply ror_runs_call. right. eauto.
  - intros [(y & Hy & Hg)|(e & -> & He)].
    + apply ror_runs_call in Hy.
      destruct Hy as [(n & args & F & Hrun)|(n & e & _ & He)];
        [|discriminate].
      left. exists n, args. split; [exact F|].
      apply (then_runs globals st self f g args r Hself).
      left. exists y. split; [now apply Hf|exact Hg].
    + apply ror_runs_call in He.
      destruct He as [(n & args & F & Hrun)|(n & e' & F & He')].
      * left. exists n, args. split; [exact F|].
        apply (then_runs globals st self f g args (Raise e) Hself).
        right. exists e. split; [reflexivity|now apply Hf].
      * right. exists n, e'. now split.
Qed.

(** X16.  Piping [x] into the pipeline [self | g] is piping [x] into
    [self] and calling [g] on the result: the input is forced once, at
    the head, and the value that goes from the first stage to the second
    is passed as it is; an exception raised by forcing or by the first
    stage is the exception of the whole. *)
Theorem ror_into_pipeline (globals : string -> list value -> exec value)
  (st : store) (self : loc) (f g x : value) (r : result value) :
  st !! self = Some f ->
  callable g = true ->
  exists (l : loc) (st' : store),
    composable.__or__ st self g = (VComposable l, st')
    /\ (ror_runs globals st' l x r <->
        (exists y, ror_runs globals st' self x (Ret y)
                   /\ runs globals st' g [y] r)
        \/ (exists e, r = Raise e /\ ror_runs globals st' self x (Raise e))).
Proof.
  intros Hself Hg.
  destruct (or_new_object st self g) as (lam & Hor & Hlam).
  rewrite Hg in Hlam. subst lam.
  exists (length st), (st ++ [VLamThen self g]).
  split; [exact Hor|]. exact (ror_then globals st self f g x r Hself).
Qed.

Lemma ror_into_pipeline_witness :
  exists (l : loc) (st' : store),
    composable.__or__ [VFunc "pair"] 0 (VFunc "identity") = (VComposable l, st')
    /\ ror_runs example_globals st' l (VInt 1) (Ret (VTuple [VInt 1; VInt 1])).
Proof.
  destruct (ror_into_pipeline example_globals [VFunc "pair"] 0 (VFunc "pair")
              (VFunc "identity") (VInt 1) (Ret (VTuple [VInt 1; VInt 1]))
              eq_refl eq_refl) as (l & st' & Hor & Hrun).
  exists l, st'. split; [exact Hor|]. apply Hrun.
  left. exists (VTuple [VInt 1; VInt 1]).
  injection Hor as <- <-.
  split; exists 1%nat; reflexivity.
Defined.

Lemma forced_plain (globals : string -> list value -> exec value)
  (st : store) (xs ys : list value) :
  Forall (fun v => callable v = false) xs ->
  Forall2 (forced globals st) xs ys <-> ys = xs.
Proof.
  intros Hxs. revert ys. induction Hxs as [|x xs Hx _ IH]; intros ys.
  - split; [intros H; now inversion H|intros ->; constructor].
  - split.
    + intros H. inversion H as [|? y ? ys' Hy Hys]; subst.
      unfold forced in Hy. rewrite Hx in Hy. subst y.
      f_equal. now apply IH.
    + intros ->. constructor; [|now apply IH].
      unfold forced. now rewrite Hx.
Qed.

Lemma forcing_plain (globals : string -> list value -> exec value)
  (st : store) (xs : list value) (e : exn) :
  Forall (fun v => callable v = false) xs ->
  ~ forcing_raises globals st xs e.
Proof.
  intros Hxs (pre & x & post & ys & -> & _ & Hx & _).
  rewrite List.Forall_forall in Hxs.
  specialize (Hxs x ltac:(apply in_app_iff; right; now left)). congruence.
Qed.

(** X17.  A [list] none of whose elements is callable reaches the
    first stage as an equal [list]; a [tuple] of the same elements
    reaches it as that [list] too, the [tuple] being rebuilt as a
    [list]; a [dict] none of whose values is callable reaches it as an
    equal [dict]. *)
Theorem ror_plain_container (globals : string -> list value -> exec value)
  (st : store) (self : loc) (xs : list value) (r : result value) :
  Forall (fun v => callable v = false) xs ->
  (ror_runs globals st self (VList xs) r <->
   exists func, st !! self = Some func /\ runs globals st func [VList xs] r)
  /\ (ror_runs globals st self (VTuple xs) r <->
      exists func, st !! self = Some func /\ runs globals st func [VList xs] r)
  /\ (forall keys,
        length keys = length xs ->
        ror_runs globals st self (VDict (combine keys xs)) r <->
        exists func,
          st !! self = Some func
          /\ runs globals st func [VDict (combine keys xs)] r).
Proof.
  intros Hxs.
  assert (forall other,
            other = VList xs \/ other = VTuple xs ->
            ror_runs globals st self other r <->
            exists func,
              st !! self = Some func /\ runs globals st func [VList xs] r)
    as Hseq.
  { intros other Hother. rewrite (ror_forced_list globals st self other xs r Hother).
    split.
    - intros [(ys & func & Hys & Hself & Hrun)|(e & _ & He)].
      + apply forced_plain in Hys; [|exact Hxs]. subst ys. eauto.
      + now apply forcing_plain in He.
    - intros (func & Hself & Hrun). left. exists xs, func.
      split; [now apply forced_plain|now split]. }
  split; [apply Hseq; now left|]. split; [apply Hseq; now right|].
  intros keys Hlen. rewrite ror_forced_dict.
  destruct (combine_keys keys xs) as [Hk Hv]; [lia|].
  rewrite Hk, Hv. split.
  - intros [(ys & func & Hys & Hself & Hrun)|(e & _ & He)].
    + apply forced_plain in Hys; [|exact Hxs]. subst ys. eauto.
    + now apply forcing_plain in He.
  - intros (func & Hself & Hrun). left. exists xs, func.
    split; [now apply forced_plain|now split].
Qed.

Lemma ror_plain_container_witness :
  ror_runs example_globals [VFunc "identity"] 0 (VTuple [VInt 1; VInt 2])
    (Ret (VList [VInt 1; VInt 2])).
Proof.
  apply (proj1 (proj2 (ror_plain_container example_globals [VFunc "identity"]
                         0 [VInt 1; VInt 2] (Ret (VList [VInt 1; VInt 2]))
                         ltac:(repeat constructor)))).
  exists (VFunc "identity"). split; [reflexivity|exists 1%nat; reflexivity].
Defined.

(** X18.  A pipeline [self | c] with [c] not callable ignores the value
    it is called on, but piping a [list] into it still forces the
    [list] first: if an element raises, the piping raises that
    exception; if the forcing succeeds, the result is that of [f(c)],
    where [f] is the function that [self] wraps. *)
Theorem ror_constant_forces (globals : string -> list value -> exec value)
  (st : store) (self : loc) (f c : value) (xs : list value) :
  st !! self = Some f ->
  callable c = false ->
  exists (l : loc) (st' : store),
    composable.__or__ st self c = (VComposable l, st')
    /\ (forall e,
          forcing_raises globals st' xs e ->
          ror_runs globals st' l (VList xs) (Raise e))
    /\ (forall ys r,
          Forall2 (forced globals st') xs ys ->
          ror_runs globals st' l (VList xs) r <-> runs globals st' f [c] r).
Proof.
  intros Hself Hc.
  destruct (or_new_object st self c) as (lam & Hor & Hlam).
  rewrite Hc in Hlam. subst lam.
  destruct (lookup_new st (VLamConst self c)) as [_ Hnew].
  exists (length st), (st ++ [VLamConst self c]).
  split; [exact Hor|].
  set (st' := st ++ [VLamConst self c]) in *.
  assert (forall x r, runs globals st' (VLamConst self c) [x] r
                      <-> runs globals st' f [c] r) as Hconst.
  { intros x r. rewrite runs_const. split.
    - intros (f' & Hf' & H). unfold st' in Hf'.
      rewrite (lookup_kept _ _ _ _ Hself) in Hf'. now injection Hf' as <-.
    - intros H. exists f. split; [now apply lookup_kept|exact H]. }
  split.
  - intros e He.
    apply (ror_forced_list globals st' (length st) (VList xs) xs (Raise e));
      [now left|]. right. eauto.
  - intros ys r Hys.
    rewrite (ror_forced_list globals st' (length st) (VList xs) xs r)
      by now left.
    split.
    + intros [(ys' & func & _ & Hfunc & Hrun)|(e & _ & He)].
      * rewrite Hnew in Hfunc. injection Hfunc as <-. now apply Hconst in Hrun.
      * exfalso. destruct He as (pre & x & post & zs & -> & _ & Hx & Hraise).
        apply Forall2_app_inv_l in Hys.
        destruct Hys as (ys1 & ys2 & _ & Hrest & _).
        inversion Hrest as [|? y ? ? Hy _]; subst.
        unfold forced in Hy. rewrite Hx in Hy.
        pose proof (runs_deterministic globals _ _ _ _ _ Hy Hraise) as Habs.
        discriminate Habs.
    + intros Hrun. left. exists ys, (VLamConst self c).
      split; [exact Hys|]. split; [exact Hnew|]. now apply Hconst.
Qed.

Lemma ror_constant_forces_witness :
  exists (l : loc) (st' : store),
    composable.__or__ [VFunc "double"] 0 (VInt 4) = (VComposable l, st')
    /\ ror_runs example_globals st' l (VList [VFunc "five"]) (Ret (VInt 8)).
Proof.
  destruct (ror_constant_forces example_globals [VFunc "double"] 0
              (VFunc "double") (VInt 4) [VFunc "five"] eq_refl eq_refl)
    as (l & st' & Hor & _ & Hrun).
  exists l, st'. split; [exact Hor|].
  apply (Hrun [VInt 5]).
  - constructor; [exists 1%nat; reflexivity|constructor].
  - exists 1%nat. reflexivity.
Defined.

Lemma binary_or_pipes_in (globals : string -> list value -> exec value)
  (n : nat) (st : store) (x : value) (self : loc) :
  (forall l, x <> VComposable l) ->
  binary_or globals n st x (VComposable self)
  = let? r := composable.__ror__ globals n st self x in Some (Ret (r, st)).
Proof.
  intros Hx. destruct x; try reflexivity. now destruct (Hx l).
Qed.

Lemma scalar_not_composable (y : value) :
  is_scalar y = true -> forall l, y <> VComposable l.
Proof. intros H l ->. discriminate H. Qed.

Lemma ror_scalar_call (globals : string -> list value -> exec value)
  (st : store) (self : loc) (y : value) (r : result value) :
  is_scalar y = true ->
  ror_runs globals st self y r <-> runs globals st (VComposable self) [y] r.
Proof.
  intros Hy. rewrite runs_composable. apply ror_scalar_runs.
  destruct y; try exact I; discriminate Hy.
Qed.

(** X19.  The expression [x | f | g], in which each [|] pipes its left
    operand into the next stage, gives what piping [x] into the
    pipeline [f | g] gives, provided that the value that [f] returns is
    not a [list], a [tuple], a [dict] or an instance of [composable];
    and it creates no instance, while [f | g] creates one. *)
Theorem eager_pipe_is_pipeline (globals : string -> list value -> exec value)
  (st : store) (x : value) (f g : loc) :
  store_closed st = true ->
  valid_stages st [f; g] = true ->
  input_closed st x = true ->
  (forall l, x <> VComposable l) ->
  (forall y, ror_runs globals st f x (Ret y) -> is_scalar y = true) ->
  exists (l : loc) (st' : store),
    composable.__or__ st f (VComposable g) = (VComposable l, st')
    /\ (forall v,
          (exists n, eager_pipe globals n st x f g = Some (Ret (v, st)))
          <-> ror_runs globals st' l x (Ret v))
    /\ (forall e,
          (exists n, eager_pipe globals n st x f g = Some (Raise e))
          <-> ror_runs globals st' l x (Raise e)).
Proof.
  intros Hst Hv Hx Hnc Hscalar.
  simpl in Hv. apply andb_true_iff in Hv. destruct Hv as [Hf Hg].
  apply andb_true_iff in Hg. destruct Hg as [Hg _].
  apply Nat.ltb_lt in Hf. apply Nat.ltb_lt in Hg.
  destruct (lookup_lt_is_Some_2 st f Hf) as [ff Hff].
  destruct (or_new_object st f (VComposable g)) as (lam & Hor & Hlam).
  simpl in Hlam. subst lam.
  exists (length st), (st ++ [VLamThen f (VComposable g)]).
  split; [exact Hor|].
  set (st' := st ++ [VLamThen f (VComposable g)]).
  assert (forall r,
            ror_runs globals st' (length st) x r <->
            (exists y, ror_runs globals st f x (Ret y)
                       /\ ror_runs globals st g y r)
            \/ (exists e, r = Raise e /\ ror_runs globals st f x (Raise e)))
    as Hpipe.
  { intros r. unfold st'.
    rewrite (ror_then globals st f ff (VComposable g) x r Hff).
    split.
    - intros [(y & Hy & Hrun)|(e & -> & He)].
      + apply ror_runs_ext in Hy; [|assumption..].
        left. exists y. split; [exact Hy|].
        apply ror_scalar_call; [now apply Hscalar|].
        apply (runs_ext globals st [VLamThen f (VComposable g)]);
          [exact Hst|now apply Nat.ltb_lt|exact Hrun].
      + apply ror_runs_ext in He; [|assumption..]. right. eauto.
    - intros [(y & Hy & Hrun)|(e & -> & He)].
      + left. exists y. split; [now apply ror_runs_grow|].
        apply runs_grow. apply ror_scalar_call; [now apply Hscalar|exact Hrun].
      + right. exists e. split; [reflexivity|now apply ror_runs_grow]. }
  assert (forall n,
            eager_pipe globals n st x f g
            = let? y := composable.__ror__ globals n st f x in
              binary_or globals n st y (VComposable g)) as Heager.
  { intros n. unfold eager_pipe. rewrite binary_or_pipes_in by exact Hnc.
    destruct (composable.__ror__ globals n st f x) as [[y|e]|]; reflexivity. }
  assert (forall n y,
            composable.__ror__ globals n st f x = Some (Ret y) ->
            binary_or globals n st y (VComposable g)
            = let? r := composable.__ror__ globals n st g y in
              Some (Ret (r, st))) as Hsecond.
  { intros n y Hy. apply binary_or_pipes_in, scalar_not_composable.
    apply Hscalar. now exists n. }
  split.
  - intros v. rewrite Hpipe. split.
    + intros [n H]. rewrite Heager in H.
      destruct (composable.__ror__ globals n st f x) as [[y|e]|] eqn:F;
        simpl in H; try discriminate.
      rewrite (Hsecond n y F) in H.
      destruct (composable.__ror__ globals n st g y) as [[v'|e]|] eqn:G;
        simpl in H; try discriminate.
      injection H as ->. left. exists y. split; now exists n.
    + intros [(y & [n Hn] & [m Hm])|(e & He & _)]; [|discriminate].
      exists (n + m)%nat. rewrite Heager.
      rewrite (ror_mono globals n (n + m) _ _ _ _ Hn) by lia. simpl.
      rewrite (Hsecond (n + m)%nat y);
        [|apply (ror_mono globals n); [exact Hn|lia]].
      rewrite (ror_mono globals m (n + m) _ _ _ _ Hm) by lia. reflexivity.
  - intros e. rewrite Hpipe. split.
    + intros [n H]. rewrite Heager in H.
      destruct (composable.__ror__ globals n st f x) as [[y|e']|] eqn:F;
        simpl in H; try discriminate.
      * rewrite (Hsecond n y F) in H.
        destruct (composable.__ror__ globals n st g y) as [[v'|e']|] eqn:G;
          simpl in H; try discriminate.
        injection H as ->. left. exists y. split; now exists n.
      * injection H as ->. right. exists e. split; [reflexivity|now exists n].
    + intros [(y & [n Hn] & [m Hm])|(e' & He' & [n Hn])].
      * exists (n + m)%nat. rewrite Heager.
        rewrite (ror_mono globals n (n + m) _ _ _ _ Hn) by lia. simpl.
        rewrite (Hsecond (n + m)%nat y);
          [|apply (ror_mono globals n); [exact Hn|lia]].
        rewrite (ror_mono globals m (n + m) _ _ _ _ Hm) by lia. reflexivity.
      * injection He' as <-. exists n. rewrite Heager. now rewrite Hn.
Qed.

Lemma eager_pipe_is_pipeline_witness :
  exists (l : loc) (st' : store),
    composable.__or__ [VFunc "double"; VFunc "succ"] 0 (VComposable 1)
    = (VComposable l, st')
    /\ ror_runs example_globals st' l (VInt 3) (Ret (VInt 7)).
Proof.
  destruct (eager_pipe_is_pipeline example_globals
              [VFunc "double"; VFunc "succ"] (VInt 3) 0 1
              eq_refl eq_refl eq_refl)
    as (l & st' & Hor & Hret & _).
  - intros l H. discriminate H.
  - intros y [n Hn]. destruct n as [|n]; [discriminate Hn|].
    injection Hn as <-. reflexivity.
  - exists l, st'. split; [exact Hor|].
    apply Hret. exists 1%nat. reflexivity.
Defined.

(** ** Failures of the read *)

Lemma split_covers (sep c : N) (s : str) :
  In c s -> c <> sep -> exists seg, In seg (split sep s) /\ In c seg.
Proof.
  intros Hin Hne. induction s as [|x s IH]; [contradiction|]. simpl.
  destruct (x =? sep) eqn:E.
  - destruct Hin as [->|Hin]; [apply N.eqb_eq in E; contradiction|].
    destruct (IH Hin) as (seg & Hseg & Hc). exists seg. split; [now right|exact Hc].
  - destruct (split sep s) as [|seg0 segs] eqn:S;
      [now apply split_not_nil in S|].
    destruct Hin as [->|Hin].
    + exists (c :: seg0). split; now left.
    + destruct (IH Hin) as (seg & [<-|Hseg] & Hc).
      * exists (x :: seg0). split; [now left|now right].
      * exists seg. split; [now right|exact Hc].
Qed.

Lemma path_segments_nul (s : str) :
  In 0 s -> existsb (existsb (N.eqb 0)) (path_segments s) = true.
Proof.
  intros Hin.
  destruct (split_covers SLASH 0 s Hin ltac:(discriminate))
    as (seg & Hseg & H0).
  apply existsb_exists. exists seg. split.
  - unfold path_segments. apply filter_In. split; [exact Hseg|].
    apply negb_true_iff, orb_false_iff. split.
    + destruct (str_eqb seg []) eqn:E; [|reflexivity].
      apply str_eqb_eq in E. subst seg. contradiction.
    + destruct (str_eqb seg [DOT]) eqn:E; [|reflexivity].
      apply str_eqb_eq in E. subst seg.
      destruct H0 as [H0|[]]. discriminate H0.
  - apply existsb_exists. exists 0. split; [exact H0|reflexivity].
Qed.

Lemma create_filepath_nul (here : Path) (area : str) :
  In 0 area -> has_nul (step_2.create_filepath here area) = true.
Proof.
  intros Hin. unfold step_2.create_filepath, has_nul.
  assert (existsb (existsb (N.eqb 0)) (path_segments (area ++ lit ".txt"))
          = true) as Hseg.
  { apply path_segments_nul, in_app_iff. now left. }
  set (s := area ++ lit ".txt") in *.
  set (dir := truediv (truediv here DOTDOT) (lit "data_files")).
  unfold truediv. destruct (is_absolute s); cbn [parts].
  - exact Hseg.
  - rewrite existsb_app. apply orb_true_iff. right. exact Hseg.
Qed.

(** C6 as stated fails.  On a file system that holds no file at all, the
    data file of an area with a NUL character does not exist, yet the
    failure is the [ValueError] with which [open] refuses the path, not
    a [FileNotFoundError]; and for a file whose bytes are not text the
    read fails with [UnicodeDecodeError], which is no [OSError]. *)
Lemma missing_file_value_error :
  step_2.get_people (mkPath true [lit "srv"])
    (fun p => if has_nul p then BadPath else Missing) json_loads [97; 0; 98]
  = Raise (ValueError "embedded null byte")
  /\ step_2.get_people (mkPath true [lit "srv"]) (fun _ => Undecodable)
       json_loads (lit "east")
     = Raise UnicodeDecodeError.
Proof. split; vm_compute; reflexivity. Qed.

(** C6, amended.  The pipeline fails with what [open] and [read] raise
    on the resolved data file, which nothing catches: a
    [FileNotFoundError] when the operating system reports no such file,
    the [OSError] of the failure when it fails the open or the read
    otherwise, a [ValueError] when the path holds a NUL character (as
    the path of every area with a NUL does), a [UnicodeDecodeError] when
    the bytes of the file are not text.  A list of contacts, empty or
    not, is returned only when the file was read. *)
Theorem get_people_read_failure (here : Path) (fs : filesystem)
  (decoder : str -> result json) (area : str) :
  let file_path := step_2.create_filepath here area in
  (fs file_path = Missing ->
   step_2.read_lines fs file_path = Raise (FileNotFoundError file_path)
   /\ step_2.get_people here fs decoder area
      = Raise (FileNotFoundError file_path))
  /\ (forall errno,
        fs file_path = Failing errno ->
        step_2.read_lines fs file_path = Raise (OSError errno file_path)
        /\ step_2.get_people here fs decoder area
           = Raise (OSError errno file_path))
  /\ (fs file_path = BadPath ->
      step_2.read_lines fs file_path = Raise (ValueError "embedded null byte")
      /\ step_2.get_people here fs decoder area
         = Raise (ValueError "embedded null byte"))
  /\ (fs file_path = Undecodable ->
      step_2.read_lines fs file_path = Raise UnicodeDecodeError
      /\ step_2.get_people here fs decoder area = Raise UnicodeDecodeError)
  /\ ((forall p, has_nul p = true -> fs p = BadPath) ->
      In 0 area ->
      step_2.get_people here fs decoder area
      = Raise (ValueError "embedded null byte"))
  /\ (forall contacts,
        step_2.get_people here fs decoder area = Ret contacts ->
        exists buf, fs file_path = Text buf).
Proof.
  intros file_path.
  assert (forall st e,
            fs file_path = st ->
            open_read fs file_path = Raise e ->
            step_2.read_lines fs file_path = Raise e
            /\ step_2.get_people here fs decoder area = Raise e) as Hfail.
  { intros st e _ He. unfold step_2.get_people, step_2.read_lines.
    fold file_path. now rewrite He. }
  assert (forall st, fs file_path = st ->
            open_read fs file_path
            = match st with
              | Missing => Raise (FileNotFoundError file_path)
              | Failing errno => Raise (OSError errno file_path)
              | BadPath => Raise (ValueError "embedded null byte")
              | Undecodable => Raise UnicodeDecodeError
              | Text buf => Ret buf
              end) as Hopen.
  { intros st <-. reflexivity. }
  split; [intros H; exact (Hfail _ _ H (Hopen _ H))|].
  split; [intros errno H; exact (Hfail _ _ H (Hopen _ H))|].
  split; [intros H; exact (Hfail _ _ H (Hopen _ H))|].
  split; [intros H; exact (Hfail _ _ H (Hopen _ H))|].
  split.
  - intros Hnul Hin.
    assert (fs file_path = BadPath) as H
        by (apply Hnul; now apply create_filepath_nul).
    exact (proj2 (Hfail _ _ H (Hopen _ H))).
  - intros contacts. unfold step_2.get_people, step_2.read_lines, open_read.
    fold file_path.
    destruct (fs file_path) as [|errno| | |buf]; try discriminate. eauto.
Qed.

Lemma get_people_read_failure_witness :
  step_2.get_people (mkPath true [lit "srv"])
    (fun p => if has_nul p then BadPath else Missing) json_loads
    (lit "nowhere")
  = Raise (FileNotFoundError
             (mkPath true [lit "srv"; lit ".."; lit "data_files";
                           lit "nowhere.txt"]))
  /\ step_2.get_people (mkPath true [lit "srv"]) (fun _ => Failing 13)
       json_loads (lit "nowhere")
     = Raise (OSError 13
                (mkPath true [lit "srv"; lit ".."; lit "data_files";
                              lit "nowhere.txt"]))
  /\ step_2.get_people (mkPath true [lit "srv"])
       (fun p => if has_nul p then BadPath else Missing) json_loads [97; 0]
     = Raise (ValueError "embedded null byte").
Proof.
  split; [|split].
  - exact (proj2 (proj1 (get_people_read_failure (mkPath true [lit "srv"])
             (fun p => if has_nul p then BadPath else Missing) json_loads
             (lit "nowhere")) eq_refl)).
  - exact (proj2 ((proj1 (proj2 (get_people_read_failure
             (mkPath true [lit "srv"]) (fun _ => Failing 13) json_loads
             (lit "nowhere")))) 13%Z eq_refl)).
  - apply (proj1 (proj2 (proj2 (proj2 (proj2 (get_people_read_failure
             (mkPath true [lit "srv"])
             (fun p => if has_nul p then BadPath else Missing) json_loads
             [97; 0])))))).
    + intros p ->. reflexivity.
    + right. now left.
Defined.

Example json_loads_fault_positions :
  json_loads (lit "'\x'") = Raise (JSONDecodeError "Invalid \escape" (lit "'\x'") 1)
  /\ json_loads (lit "'\u12'")
     = Raise (JSONDecodeError "Invalid \uXXXX escape" (lit "'\u12'") 2)
  /\ json_loads (65279 :: lit "1")
     = Raise (JSONDecodeError "Unexpected UTF-8 BOM (decode using utf-8-sig)"
                (65279 :: lit "1") 0)
  /\ json_loads (lit "[1 2]")
     = Raise (JSONDecodeError "Expecting ',' delimiter" (lit "[1 2]") 3).
Proof. repeat split; vm_compute; reflexivity. Qed.
